(** * Schema relationship resolver of the text-to-SQL application

    A shallow embedding of [TableKnowledgeGraph] and of the response parser of
    [TextToSQLPipeline.identify_tables] (file [app.py]), followed by the
    properties of the resolver: graph construction, context-aware selection of
    join edges, rendering of composite join conditions, discovery of connecting
    tables, and the frame property of the query methods.

    Python strings are modelled by [string]; every string the development
    evaluates is ASCII, where [str.lower] and [str.strip] agree with the
    functions of module [Py] below. *)

From Stdlib Require Import String Ascii ZArith Lia.
From Stdlib Require QArith.
From stdpp Require Import base decidable option list strings gmap.

Local Open Scope string_scope.
Local Open Scope list_scope.
Local Open Scope nat_scope.

(** ** Python string methods used by the source *)

Module Py.

(** [c.isspace()] on the ASCII range: TAB..CR, FS..US and the blank. *)
Definition is_space (c : ascii) : bool :=
  let n := nat_of_ascii c in
  ((9 <=? n) && (n <=? 13)) || ((28 <=? n) && (n <=? 32)).

Definition lower_char (c : ascii) : ascii :=
  let n := nat_of_ascii c in
  if (65 <=? n) && (n <=? 90) then ascii_of_nat (n + 32) else c.

(** [s.lower()] *)
Fixpoint lower (s : string) : string :=
  match s with
  | EmptyString => EmptyString
  | String c r => String (lower_char c) (lower r)
  end.

(** [s.lstrip()], [s.rstrip()] and [s.strip()] *)
Fixpoint lstrip (s : string) : string :=
  match s with
  | EmptyString => EmptyString
  | String c r => if is_space c then lstrip r else s
  end.

Fixpoint rstrip (s : string) : string :=
  match s with
  | EmptyString => EmptyString
  | String c r =>
      match rstrip r with
      | EmptyString => if is_space c then EmptyString else String c EmptyString
      | r' => String c r'
      end
  end.

Definition strip (s : string) : string := rstrip (lstrip s).

(** [s.split(sep)] for a separator of one character *)
Fixpoint split (s : string) (sep : ascii) : list string :=
  match s with
  | EmptyString => [EmptyString]
  | String c r =>
      if bool_decide (c = sep) then EmptyString :: split r sep
      else match split r sep with
           | h :: t => String c h :: t
           | [] => [String c EmptyString]
           end
  end.

(** [sub in s] *)
Fixpoint contains (sub s : string) : bool :=
  String.prefix sub s ||
  match s with
  | EmptyString => false
  | String _ r => contains sub r
  end.

(** [sep.join(parts)] *)
Fixpoint join (sep : string) (parts : list string) : string :=
  match parts with
  | [] => EmptyString
  | [p] => p
  | p :: rest => p +:+ sep +:+ join sep rest
  end.

(** [zip(xs, ys)] stops at the end of the shorter list. *)
Fixpoint zip {A B} (xs : list A) (ys : list B) : list (A * B) :=
  match xs, ys with
  | x :: xs', y :: ys' => (x, y) :: zip xs' ys'
  | _, _ => []
  end.

(** [range(a, b)] *)
Definition range (a b : nat) : list nat := seq a (b - a).

Definition startswith (s p : string) : bool := String.prefix p s.

Definition endswith (s p : string) : bool :=
  (String.length p <=? String.length s) &&
  bool_decide (substring (String.length s - String.length p) (String.length p) s = p).

(** [s.find(c)]: the least index of [c], or -1 *)
Fixpoint find (s : string) (c : ascii) : Z :=
  match s with
  | EmptyString => (-1)%Z
  | String d r =>
      if bool_decide (d = c) then 0%Z
      else let k := find r c in if (k =? -1)%Z then (-1)%Z else (k + 1)%Z
  end.

(** [s.rfind(c)]: the greatest index of [c], or -1 *)
Fixpoint rfind (s : string) (c : ascii) : Z :=
  match s with
  | EmptyString => (-1)%Z
  | String d r =>
      let k := rfind r c in
      if (k =? -1)%Z then (if bool_decide (d = c) then 0%Z else (-1)%Z)
      else (k + 1)%Z
  end.

(** [s[a:b]] for [0 <= a <= b] *)
Definition slice (s : string) (a b : Z) : string :=
  substring (Z.to_nat a) (Z.to_nat (b - a)) s.

(** [s[n:]] for [0 <= n] *)
Definition slice_from (s : string) (n : nat) : string :=
  substring n (String.length s - n) s.

(** [s[:-n]] for [0 < n] *)
Definition slice_to_minus (s : string) (n : nat) : string :=
  substring 0 (String.length s - n) s.

End Py.

(** ** Data model *)

(** A column descriptor of [schemas]: [{"name", "description", "example"}]. *)
Module Column.
Record t := mk { name : string; description : string; example : string }.
End Column.

(** A relationship definition.  [table1], [table2], [join_key_1] and
    [join_key_2] are read with [rel[...]]; the other three keys are read with
    [rel.get(key, default)] and may be absent. *)
Module Rel.
Record t := mk {
  table1 : string;
  table2 : string;
  join_key_1 : string;
  join_key_2 : string;
  join_type : option string;
  context : option string;
  description : option string
}.
End Rel.

(** The attribute dictionary of one edge, as [add_edge] stores it. *)
Module Edge.
Record t := mk {
  source_columns : list string;
  target_columns : list string;
  join_type : string;
  context : string;
  description : string
}.
End Edge.

(** One element of the list returned by [get_join_relationships]. *)
Module Join.
Record t := mk {
  from_table : string;
  to_table : string;
  join_condition : string;
  join_type : string;
  context : string;
  description : string
}.
End Join.

Global Instance Edge_eq_dec : EqDecision Edge.t.
Proof. solve_decision. Defined.

Global Instance Join_eq_dec : EqDecision Join.t.
Proof. solve_decision. Defined.

(** ** The part of networkx the source calls *)

Inductive exn :=
  | NodeNotFound (source target : string)
  | NetworkXNoPath (source target : string)
  | JSONDecodeError (doc : string).

Inductive outcome (A : Type) :=
  | Returns (a : A)
  | Raises (e : exn).
Arguments Returns {A} a.
Arguments Raises {A} e.

Module Nx.

(** A [MultiDiGraph]: the nodes in insertion order, each with its optional
    [columns] attribute, and the edges in insertion order.  The edges between
    an ordered pair of nodes, in that order, are the values of the key
    dictionary [_adj[u][v]], whose keys 0, 1, 2, ... follow insertion. *)
Record MultiDiGraph := mkDi {
  nodes : list (string * option (list string));
  edges : list (string * string * Edge.t)
}.

(** The [MultiGraph] that [to_undirected] returns: a copy with the same nodes
    and edges, whose edges are read in both directions. *)
Record MultiGraph := mkUn {
  unodes : list (string * option (list string));
  uedges : list (string * string * Edge.t)
}.

Definition empty : MultiDiGraph := mkDi [] [].

Definition has_node (g : MultiDiGraph) (n : string) : bool :=
  bool_decide (n ∈ (nodes g).*1).

(** [g.add_node(n, columns=cols)]: a new node is appended, the attributes of
    an existing one are updated. *)
Definition add_node (g : MultiDiGraph) (n : string) (cols : list string) : MultiDiGraph :=
  if has_node g n
  then mkDi (map (fun na => if bool_decide (na.1 = n) then (n, Some cols) else na) (nodes g))
            (edges g)
  else mkDi (nodes g ++ [(n, Some cols)]) (edges g).

Definition touch_node (g : MultiDiGraph) (n : string) : MultiDiGraph :=
  if has_node g n then g else mkDi (nodes g ++ [(n, None)]) (edges g).

(** [g.add_edge(u, v, **attrs)]: both endpoints become nodes when they are
    not, and the edge is stored under the next free key. *)
Definition add_edge (g : MultiDiGraph) (u v : string) (attrs : Edge.t) : MultiDiGraph :=
  let g1 := touch_node (touch_node g u) v in
  mkDi (nodes g1) (edges g1 ++ [(u, v, attrs)]).

(** [g.get_edge_data(u, v)]: the attribute dictionaries of the edges
    recorded from [u] to [v], by key. *)
Definition get_edge_data (g : MultiDiGraph) (u v : string) : list Edge.t :=
  (filter (fun e => e.1.1 = u ∧ e.1.2 = v) (edges g)).*2.

(** [g.has_edge(u, v)] *)
Definition has_edge (g : MultiDiGraph) (u v : string) : bool :=
  bool_decide (get_edge_data g u v ≠ []).

Definition to_undirected (g : MultiDiGraph) : MultiGraph :=
  mkUn (nodes g) (edges g).

(** [G[u]] of the undirected copy: the other endpoint of every edge that
    touches [u]. *)
Definition neighbors (G : MultiGraph) (u : string) : list string :=
  e ← uedges G;
  (if bool_decide (e.1.1 = u) then [e.1.2] else []) ++
  (if bool_decide (e.1.2 = u) then [e.1.1] else []).

(** Breadth-first search by levels.  A frontier entry [(u, pre)] is a node
    [u] of the current level with the reversed path that led to it; [seen]
    holds the nodes of the earlier levels and of the current one. *)
Definition visited (seen : list string) (next : list (string * list string))
    (v : string) : bool :=
  bool_decide (v ∈ seen) || bool_decide (v ∈ next.*1).

Definition visit (seen : list string) (u : string) (pre : list string)
    (next : list (string * list string)) (v : string) : list (string * list string) :=
  if visited seen next v then next else next ++ [(v, u :: pre)].

Definition expand_node (G : MultiGraph) (seen : list string)
    (next : list (string * list string)) (entry : string * list string) :=
  foldl (visit seen entry.1 entry.2) next (neighbors G entry.1).

Definition expand (G : MultiGraph) (seen : list string)
    (frontier : list (string * list string)) : list (string * list string) :=
  foldl (expand_node G seen) [] frontier.

Fixpoint bfs (G : MultiGraph) (target : string) (fuel : nat)
    (frontier : list (string * list string)) (seen : list string) : option (list string) :=
  match List.find (fun entry => bool_decide (entry.1 = target)) frontier with
  | Some (u, pre) => Some (reverse (u :: pre))
  | None =>
      match fuel with
      | O => None
      | S fuel' =>
          let next := expand G seen frontier in
          bfs G target fuel' next (seen ++ next.*1)
      end
  end.

Definition has_unode (G : MultiGraph) (n : string) : bool :=
  bool_decide (n ∈ (unodes G).*1).

(** [nx.shortest_path(G, source, target)] on an unweighted graph, a function
    of the library: a path with the least number of edges, [NodeNotFound] when
    an endpoint is not a node of [G], [NetworkXNoPath] when the endpoints are
    not connected.  Among several shortest paths networkx returns the one its
    traversal meets first; here it is the one this search meets first, and no
    property below depends on the choice. *)
Definition shortest_path (G : MultiGraph) (source target : string) : outcome (list string) :=
  if negb (has_unode G source) || negb (has_unode G target)
  then Raises (NodeNotFound source target)
  else match bfs G target (length (unodes G)) [(source, [])] [source] with
       | Some path => Returns path
       | None => Raises (NetworkXNoPath source target)
       end.

End Nx.

(** ** The object and the monad of its methods *)

Record TableKnowledgeGraph := mkKG {
  graph : Nx.MultiDiGraph;
  schemas : list (string * list Column.t);
  relationships : list Rel.t
}.

(** A method body: it runs on the object, returns or raises, and leaves the
    object in a new state. *)
Definition M (A : Type) : Type :=
  TableKnowledgeGraph -> outcome A * TableKnowledgeGraph.

Global Instance M_ret : MRet M := fun A a self => (Returns a, self).

Global Instance M_bind : MBind M := fun A B f m self =>
  match m self with
  | (Returns a, self') => f a self'
  | (Raises e, self') => (Raises e, self')
  end.

Definition self_graph : M Nx.MultiDiGraph := fun self => (Returns (graph self), self).
Definition self_schemas : M (list (string * list Column.t)) :=
  fun self => (Returns (schemas self), self).
Definition self_relationships : M (list Rel.t) :=
  fun self => (Returns (relationships self), self).

(** A call of a mutating method on [self.graph]. *)
Definition update_graph (f : Nx.MultiDiGraph -> Nx.MultiDiGraph) : M unit :=
  fun self => (Returns tt, mkKG (f (graph self)) (schemas self) (relationships self)).

Definition lift {A} (o : outcome A) : M A := fun self => (o, self).

(** [try: body except ...: handler]: [handler e] is [None] for an exception the
    clause does not name, which then propagates. *)
Definition try_except {A} (body : M A) (handler : exn -> option (M A)) : M A :=
  fun self =>
    match body self with
    | (Returns a, self') => (Returns a, self')
    | (Raises e, self') =>
        match handler e with
        | Some h => h self'
        | None => (Raises e, self')
        end
    end.

(** [for x in xs: body], with the local variables the body assigns in [acc]. *)
Fixpoint for_each {A S} (xs : list A) (acc : S) (body : S -> A -> M S) : M S :=
  match xs with
  | [] => mret acc
  | x :: xs' => acc' ← body acc x; for_each xs' acc' body
  end.

(** ** TableKnowledgeGraph *)

Definition opt_get (o : option string) (default : string) : string :=
  match o with Some v => v | None => default end.

(** [_build_graph], lines 54-80 *)
Definition _build_graph : M unit :=
  schemas ← self_schemas;
  _ ← for_each schemas tt (fun _ item =>
        let table_name := item.1 in
        let columns := item.2 in
        update_graph (fun g => Nx.add_node g table_name (map Column.name columns)));
  relationships ← self_relationships;
  for_each relationships tt (fun _ rel =>
    let table1 := Rel.table1 rel in
    let table2 := Rel.table2 rel in
    let source_cols := map Py.strip (Py.split (Rel.join_key_1 rel) "+") in
    let target_cols := map Py.strip (Py.split (Rel.join_key_2 rel) "+") in
    update_graph (fun g =>
      Nx.add_edge g table1 table2
        (Edge.mk source_cols target_cols
           (opt_get (Rel.join_type rel) "INNER")
           (opt_get (Rel.context rel) "default")
           (opt_get (Rel.description rel) ("Join " +:+ table1 +:+ " with " +:+ table2))))).

(** [__init__], lines 48-52 *)
Definition __init__ (schemas : list (string * list Column.t))
    (relationships : list Rel.t) : TableKnowledgeGraph :=
  (_build_graph (mkKG Nx.empty schemas relationships)).2.

(** The context filter of lines 100-127: [true] when the edge is left out by
    [continue]. *)
Definition skip_edge (context : option string) (edges_dict : list Edge.t)
    (edge_data : Edge.t) : bool :=
  let edge_context := Edge.context edge_data in
  match context with
  | Some context =>
      if bool_decide (context ≠ "") then
        let context_lower := Py.lower context in
        let edge_context_lower := Py.lower edge_context in
        let has_context_match := Py.contains context_lower edge_context_lower in
        let is_default := bool_decide (edge_context = "default") in
        let has_context_specific_edges :=
          existsb (fun ed => Py.contains context_lower (Py.lower (Edge.context ed)))
                  (filter (fun ed => Edge.context ed ≠ "default") edges_dict) in
        if negb has_context_match then
          if is_default && negb has_context_specific_edges then false else true
        else false
      else false
  | None => false
  end.

(** The record of lines 129-145. *)
Definition join_record (start end_ : string) (edge_data : Edge.t) : Join.t :=
  let source_cols := Edge.source_columns edge_data in
  let target_cols := Edge.target_columns edge_data in
  let join_conditions :=
    map (fun st => start +:+ "." +:+ st.1 +:+ " = " +:+ end_ +:+ "." +:+ st.2)
        (Py.zip source_cols target_cols) in
  Join.mk start end_ (Py.join " AND " join_conditions)
    (Edge.join_type edge_data) (Edge.context edge_data) (Edge.description edge_data).

(** [get_join_relationships], lines 82-147 *)
Definition get_join_relationships (tables : list string) (context : option string)
    : M (list Join.t) :=
  for_each (Py.range 0 (length tables)) [] (fun relationships i =>
    for_each (Py.range (i + 1) (length tables)) relationships (fun relationships j =>
      let source := tables !!! i in
      let target := tables !!! j in
      for_each [(source, target); (target, source)] relationships
        (fun relationships se =>
           let '(start, end_) := se in
           g ← self_graph;
           if Nx.has_edge g start end_ then
             let edges_dict := Nx.get_edge_data g start end_ in
             for_each edges_dict relationships (fun relationships edge_data =>
               if skip_edge context edges_dict edge_data then mret relationships
               else mret (relationships ++ [join_record start end_ edge_data]))
           else mret relationships))).

(** [get_all_tables_needed], lines 149-165.  [list(all_tables)] lists the set
    in an order that Python leaves open; [elements] is one such order, and the
    properties below speak of membership only. *)
Definition get_all_tables_needed (tables : list string) : M (list string) :=
  let all_tables : gset string := list_to_set tables in
  all_tables ← for_each (Py.range 0 (length tables)) all_tables (fun all_tables i =>
    for_each (Py.range (i + 1) (length tables)) all_tables (fun all_tables j =>
      try_except
        (g ← self_graph;
         path ← lift (Nx.shortest_path (Nx.to_undirected g) (tables !!! i) (tables !!! j));
         mret (all_tables ∪ list_to_set path))
        (fun e => match e with
                  | NetworkXNoPath _ _ => Some (mret all_tables)
                  | _ => None
                  end)));
  mret (elements all_tables).

(** ** Stage 1 of the pipeline: reading the collaborator's answer *)

#[warnings="-register-all"]
Inductive json :=
  | JNull
  | JBool (b : bool)
  | JNumber (lexeme : string)
  | JString (s : string)
  | JArray (items : list json)
  | JObject (members : list (string * json)).

Section Stage1.

(** [json.loads] of the Python standard library; [None] stands for its
    [JSONDecodeError]. *)
Variable json_loads : string -> option json.

Definition loads (doc : string) : outcome json :=
  match json_loads doc with
  | Some value => Returns value
  | None => Raises (JSONDecodeError doc)
  end.

(** Lines 581-588 of [identify_tables]: the answer without its code fence. *)
Definition clean_response (response : string) : string :=
  let response := Py.strip response in
  let response :=
    if Py.startswith response "```json" then Py.slice_from response 7
    else if Py.startswith response "```" then Py.slice_from response 3
    else response in
  let response :=
    if Py.endswith response "```" then Py.slice_to_minus response 3
    else response in
  Py.strip response.

(** [identify_tables], lines 578-602, from the point where the collaborator
    has answered [response].  The [except] clause reports the error and
    raises it again. *)
Definition identify_tables (response : string) : outcome json :=
  let response := clean_response response in
  let start := Py.find response "{" in
  let end_ := (Py.rfind response "}" + 1)%Z in
  if negb (start =? -1)%Z && (end_ >? start)%Z then
    let json_str := Py.slice response start end_ in
    loads json_str
  else
    loads response.

End Stage1.

(** ** Vocabulary of the properties *)

(** The pairs [(tables[i], tables[j])] with [i < j], in the order of the
    nested loops. *)
Fixpoint pairs {A} (l : list A) : list (A * A) :=
  match l with
  | [] => []
  | x :: r => map (pair x) r ++ pairs r
  end.

(** The edges from [start] to [end_] that survive the context filter, and the
    records made of them. *)
Definition kept_edges (g : Nx.MultiDiGraph) (context : option string)
    (start end_ : string) : list Edge.t :=
  filter (fun ed => skip_edge context (Nx.get_edge_data g start end_) ed = false)
         (Nx.get_edge_data g start end_).

Definition joins_from (g : Nx.MultiDiGraph) (context : option string)
    (start end_ : string) : list Join.t :=
  map (join_record start end_) (kept_edges g context start end_).

Definition joins_of_pair (g : Nx.MultiDiGraph) (context : option string)
    (st : string * string) : list Join.t :=
  joins_from g context st.1 st.2 ++ joins_from g context st.2 st.1.

(** A record from [a] to [b], and a record between the two tables in either
    direction. *)
Definition directed (a b : string) (r : Join.t) : Prop :=
  Join.from_table r = a ∧ Join.to_table r = b.

Global Instance directed_dec a b r : Decision (directed a b r).
Proof. unfold directed. apply _. Defined.

Definition between (a b : string) (r : Join.t) : Prop :=
  directed a b r ∨ directed b a r.

Global Instance between_dec a b r : Decision (between a b r).
Proof. unfold between. apply _. Defined.


(** The equality the specification gives for position [k] of an edge. *)
Definition equality_at (start end_ : string) (ed : Edge.t) (k : nat) : string :=
  start +:+ "." +:+ (Edge.source_columns ed !!! k) +:+ " = " +:+
  end_ +:+ "." +:+ (Edge.target_columns ed !!! k).

(** Paths of the graph read as undirected. *)
Definition adjacent (g : Nx.MultiDiGraph) (u v : string) : Prop :=
  ∃ e, e ∈ Nx.edges g ∧ ((e.1.1 = u ∧ e.1.2 = v) ∨ (e.1.1 = v ∧ e.1.2 = u)).

Fixpoint chain (g : Nx.MultiDiGraph) (p : list string) : Prop :=
  match p with
  | [] => True
  | u :: r =>
      match r with
      | [] => True
      | v :: _ => adjacent g u v ∧ chain g r
      end
  end.

Definition connects (g : Nx.MultiDiGraph) (p : list string) (a b : string) : Prop :=
  head p = Some a ∧ last p = Some b ∧ chain g p.

Definition connected (g : Nx.MultiDiGraph) (a b : string) : Prop :=
  ∃ p, connects g p a b.

Definition shortest (g : Nx.MultiDiGraph) (p : list string) (a b : string) : Prop :=
  connects g p a b ∧ ∀ q, connects g q a b → length p ≤ length q.

(** The part of a list [J] that the pair [st] contributes when only the pair
    of [a] and [b], in either order, contributes. *)
Definition share {B} (J : list B) (a b : string) (st : string * string) : list B :=
  (if decide (st = (a, b)) then J else []) ++
  (if decide (st = (b, a)) then J else []).

(** Every endpoint of an edge is a node: the invariant [add_edge] maintains. *)
Definition closed_graph (g : Nx.MultiDiGraph) : Prop :=
  ∀ e, e ∈ Nx.edges g → e.1.1 ∈ (Nx.nodes g).*1 ∧ e.1.2 ∈ (Nx.nodes g).*1.

(** The edge [_build_graph] makes of a relationship definition. *)
Definition edge_of_rel (rel : Rel.t) : string * string * Edge.t :=
  (Rel.table1 rel, Rel.table2 rel,
   Edge.mk (map Py.strip (Py.split (Rel.join_key_1 rel) "+"))
           (map Py.strip (Py.split (Rel.join_key_2 rel) "+"))
           (opt_get (Rel.join_type rel) "INNER")
           (opt_get (Rel.context rel) "default")
           (opt_get (Rel.description rel)
              ("Join " +:+ Rel.table1 rel +:+ " with " +:+ Rel.table2 rel))).

(** The nodes that a walk of exactly [k] edges reaches from [source] in the
    undirected copy of the graph, and the nodes first reached at that
    length. *)
Fixpoint level (g : Nx.MultiDiGraph) (source : string) (k : nat) : list string :=
  match k with
  | O => [source]
  | S k' => level g source k' ≫= Nx.neighbors (Nx.to_undirected g)
  end.

Definition fresh (g : Nx.MultiDiGraph) (source : string) (k : nat) (v : string) : Prop :=
  v ∈ level g source k ∧ ∀ j, j < k → v ∉ level g source j.

(** Whether a node is reached at some length below [m]. *)
Global Instance level_bounded_dec g source v m :
  Decision (∃ j, j < m ∧ v ∈ level g source j).
Proof.
  induction m as [|m IH].
  - right. intros (j & Hj & _). lia.
  - destruct IH as [IH|IH].
    + left. destruct IH as (j & Hj & Hv). exists j. split; [lia|done].
    + destruct (decide (v ∈ level g source m)) as [Hv|Hv].
      * left. exists m. split; [lia|done].
      * right. intros (j & Hj & Hv').
        destruct (decide (j = m)) as [->|Hne]; [done|].
        apply IH. exists j. split; [lia|done].
Defined.

(** The loop invariant of [Nx.bfs] at level [k]: the entries of the frontier
    are the nodes first reached at length [k], each with a path of [k] edges
    back to [source], and [seen] holds the nodes reached at length [k] or
    less. *)
Definition bfs_inv (g : Nx.MultiDiGraph) (source : string) (k : nat)
    (frontier : list (string * list string)) (seen : list string) : Prop :=
  (∀ u pre, (u, pre) ∈ frontier →
     length pre = k ∧ last (u :: pre) = Some source ∧ chain g (u :: pre)) ∧
  (∀ v, v ∈ seen ↔ ∃ j, j ≤ k ∧ v ∈ level g source j) ∧
  (∀ v, v ∈ frontier.*1 ↔ fresh g source k v) ∧
  NoDup seen ∧ seen ⊆ (Nx.nodes g).*1.

(** The effect of one pair of tables on [all_tables], lines 155-163. *)
Definition connect (g : Nx.MultiDiGraph) (all_tables : gset string)
    (st : string * string) : outcome (gset string) :=
  match Nx.shortest_path (Nx.to_undirected g) st.1 st.2 with
  | Returns path => Returns (all_tables ∪ list_to_set path)
  | Raises (NetworkXNoPath _ _) => Returns all_tables
  | Raises e => Raises e
  end.

Fixpoint fold_outcome {A S} (f : S -> A -> outcome S) (acc : S) (xs : list A) : outcome S :=
  match xs with
  | [] => Returns acc
  | x :: xs' =>
      match f acc x with
      | Returns acc' => fold_outcome f acc' xs'
      | Raises e => Raises e
      end
  end.

(** One step of each loop of [_build_graph]. *)
Definition add_schema (g : Nx.MultiDiGraph) (item : string * list Column.t) : Nx.MultiDiGraph :=
  Nx.add_node g item.1 (map Column.name item.2).

Definition add_relationship (g : Nx.MultiDiGraph) (rel : Rel.t) : Nx.MultiDiGraph :=
  Nx.add_edge g (edge_of_rel rel).1.1 (edge_of_rel rel).1.2 (edge_of_rel rel).2.


(** ** Sample data *)

Definition column (name : string) : Column.t := Column.mk name "" "".

Definition sample_schemas : list (string * list Column.t) :=
  [("Counterparty", map column ["Entity"; "Counterparty ID"; "Counterparty Country";
                                "Counterparty Sector"; "Internal Rating"]);
   ("Trade", map column ["Entity"; "Reporting Counterparty ID"]);
   ("Concentration", map column ["Entity"; "Concentration Value"])].

Definition inner_join (table1 table2 key1 key2 context : string) : Rel.t :=
  Rel.mk table1 table2 key1 key2 (Some "INNER") (Some context)
         (Some ("Join " +:+ table1 +:+ " with " +:+ table2)).

(** The four joins of [update_joins.py]. *)
Definition sample_relationships : list Rel.t :=
  [inner_join "Counterparty" "Trade"
     "Entity+Counterparty ID" "Entity+Reporting Counterparty ID" "default";
   inner_join "Counterparty" "Concentration"
     "Entity+Counterparty Country" "Entity+Concentration Value" "For country level data";
   inner_join "Counterparty" "Concentration"
     "Entity+Counterparty Sector" "Entity+Concentration Value" "For sector level data";
   inner_join "Counterparty" "Concentration"
     "Entity+Internal Rating" "Entity+Concentration Value" "For rating level data"].

Definition sample_kg : TableKnowledgeGraph :=
  __init__ sample_schemas sample_relationships.






(** A join whose first key has two columns and whose second key has one. *)
Definition lopsided_join : Rel.t :=
  inner_join "Counterparty" "Trade"
    "Entity+Counterparty ID" "Reporting Counterparty ID" "default".

Definition lopsided_kg : TableKnowledgeGraph :=
  __init__ sample_schemas [lopsided_join].



(** ** Further methods of the resolver and of the pipeline *)

(** A Python dictionary with string keys, in insertion order: [d.get(k, default)]
    and [d[k] = v], which keeps the place of a key that is already there. *)
Fixpoint dict_get {V} (d : list (string * V)) (k : string) (default : V) : V :=
  match d with
  | [] => default
  | (k', v) :: d' => if bool_decide (k' = k) then v else dict_get d' k default
  end.

Fixpoint dict_set {V} (d : list (string * V)) (k : string) (v : V) : list (string * V) :=
  match d with
  | [] => [(k, v)]
  | (k', v') :: d' =>
      if bool_decide (k' = k) then (k, v) :: d' else (k', v') :: dict_set d' k v
  end.

(** [get_columns_for_tables], lines 167-169: the dictionary comprehension
    assigns the keys in the order of [tables]. *)
Definition get_columns_for_tables (tables : list string)
    : M (list (string * list Column.t)) :=
  for_each tables [] (fun result table =>
    schemas ← self_schemas;
    mret (dict_set result table (dict_get schemas table []))).

(** The dictionary that [get_join_info] returns. *)
Module JoinInfo.
Record t := mk {
  requested_tables : list string;
  all_tables_needed : list string;
  joins : list Join.t;
  schemas : list (string * list Column.t);
  context : option string
}.
End JoinInfo.

(** [TextToSQLPipeline.get_join_info], lines 604-621; the object is [self.kg]. *)
Definition get_join_info (tables : list string) (context : option string)
    : M JoinInfo.t :=
  all_tables ← get_all_tables_needed tables;
  joins ← get_join_relationships all_tables context;
  schemas ← get_columns_for_tables all_tables;
  mret (JoinInfo.mk tables all_tables joins schemas context).

(** ** Views of the graph, statistics and export *)

(** The names in a list, each at its first place. *)
Fixpoint distinct (l : list string) : list string :=
  match l with
  | [] => []
  | x :: r => x :: filter (fun y => y ≠ x) (distinct r)
  end.

(** The keys of [_succ[n]]: the targets of the edges from [n], in the order in
    which the first edge to each was added. *)
Definition successors (g : Nx.MultiDiGraph) (n : string) : list string :=
  distinct (map (fun e => e.1.2) (filter (fun e => e.1.1 = n) (Nx.edges g))).

(** [g.edges(keys=True)]: node by node, successor by successor, key by key. *)
Definition edges_keys (g : Nx.MultiDiGraph) : list (string * string * nat) :=
  n ← (Nx.nodes g).*1;
  nbr ← successors g n;
  key ← seq 0 (length (Nx.get_edge_data g n nbr));
  [(n, nbr, key)].

(** [g.get_edge_data(u, v, key)]: [None] when there is no such edge. *)
Definition get_edge_data_key (g : Nx.MultiDiGraph) (u v : string) (key : nat)
    : option Edge.t :=
  Nx.get_edge_data g u v !! key.

(** [g.nodes[n].get('columns', [])] *)
Definition node_columns (g : Nx.MultiDiGraph) (n : string) : list string :=
  match dict_get (Nx.nodes g) n None with
  | Some columns => columns
  | None => []
  end.

(** [g.degree(n)] of a directed multigraph: the edges that leave [n] and the
    edges that enter it. *)
Definition degree (g : Nx.MultiDiGraph) (n : string) : nat :=
  length (filter (fun e => e.1.1 = n) (Nx.edges g)) +
  length (filter (fun e => e.1.2 = n) (Nx.edges g)).

(** Whether [shortest_path] finds a path from [a] to [b]. *)
Definition reaches (g : Nx.MultiDiGraph) (a b : string) : bool :=
  match Nx.shortest_path (Nx.to_undirected g) a b with
  | Returns _ => true
  | Raises _ => false
  end.

(** [nx.is_weakly_connected(g)], a function of the library: it raises
    [NetworkXPointlessConcept] on a graph without nodes, for which [None]
    stands here, and otherwise tells whether the component of the first node,
    edges read in both directions, has as many nodes as the graph. *)
Definition is_weakly_connected (g : Nx.MultiDiGraph) : option bool :=
  match (Nx.nodes g).*1 with
  | [] => None
  | first :: _ =>
      Some (bool_decide (length (filter (fun n => reaches g first n = true) (Nx.nodes g).*1)
                         = length (Nx.nodes g)))
  end.

Module GraphStats.
Record t := mk {
  total_tables : nat;
  total_relationships : nat;
  tables : list string;
  average_connections : QArith_base.Q;
  is_connected : bool
}.
End GraphStats.

(** [get_graph_stats], lines 273-281.  The method reads the graph only; [None]
    stands for the [NetworkXPointlessConcept] of [is_weakly_connected].
    Python computes the average as a float; the model keeps the exact
    quotient of the two integers. *)
Definition get_graph_stats (self : TableKnowledgeGraph) : option GraphStats.t :=
  let g := graph self in
  let number_of_nodes := length (Nx.nodes g) in
  let average_connections :=
    if 0 <? number_of_nodes
    then QArith_base.Qmake (Z.of_nat (sum_list (map (degree g) (Nx.nodes g).*1)))
                           (Pos.of_nat number_of_nodes)
    else QArith_base.Qmake 0 1 in
  is_connected ← is_weakly_connected g;
  Some (GraphStats.mk number_of_nodes (length (Nx.edges g)) (Nx.nodes g).*1
          average_connections is_connected).

Module ExportNode.
Record t := mk {
  table_name : string;
  columns : list string;
  column_count : nat
}.
End ExportNode.

Module ExportEdge.
Record t := mk {
  from : string;
  to : string;
  source_columns : list string;
  target_columns : list string;
  join_type : string;
  context : string;
  description : string
}.
End ExportEdge.

Module GraphData.
Record t := mk {
  nodes : list ExportNode.t;
  edges : list ExportEdge.t
}.
End GraphData.

Definition export_node (g : Nx.MultiDiGraph) (node : string) : ExportNode.t :=
  ExportNode.mk node (node_columns g node) (length (node_columns g node)).

(** The body of the loop of lines 300-311; [None] stands for the [TypeError]
    of subscripting the [None] that [get_edge_data] returns for a missing
    edge. *)
Definition export_edge (g : Nx.MultiDiGraph) (edge : string * string * nat)
    : option ExportEdge.t :=
  let source := edge.1.1 in
  let target := edge.1.2 in
  let key := edge.2 in
  edge_data ← get_edge_data_key g source target key;
  Some (ExportEdge.mk source target
          (Edge.source_columns edge_data) (Edge.target_columns edge_data)
          (Edge.join_type edge_data) (Edge.context edge_data)
          (Edge.description edge_data)).

(** [export_graph_data], lines 283-313.  The method reads the graph only. *)
Definition export_graph_data (self : TableKnowledgeGraph) : option GraphData.t :=
  let g := graph self in
  let nodes := map (export_node g) (Nx.nodes g).*1 in
  edges ← mapM (export_edge g) (edges_keys g);
  Some (GraphData.mk nodes edges).

(** [visualize_kg.py], lines 20-46: the graph [G] that the script builds from
    exported data.  The script stores [column_count] beside [columns] on each
    node and never reads it from the graph again; [Nx.MultiDiGraph] has no
    place for it. *)
Definition rebuild_graph (kg_data : GraphData.t) : Nx.MultiDiGraph :=
  let G := Nx.empty in
  let G := foldl (fun G node =>
                    Nx.add_node G (ExportNode.table_name node) (ExportNode.columns node))
                 G (GraphData.nodes kg_data) in
  foldl (fun G edge =>
           Nx.add_edge G (ExportEdge.from edge) (ExportEdge.to edge)
             (Edge.mk (ExportEdge.source_columns edge) (ExportEdge.target_columns edge)
                (ExportEdge.join_type edge) (ExportEdge.context edge)
                (ExportEdge.description edge)))
        G (GraphData.edges kg_data).

(** The edge with its attributes that an exported edge stands for. *)
Definition edge_of_export (edge : ExportEdge.t) : string * string * Edge.t :=
  (ExportEdge.from edge, ExportEdge.to edge,
   Edge.mk (ExportEdge.source_columns edge) (ExportEdge.target_columns edge)
     (ExportEdge.join_type edge) (ExportEdge.context edge)
     (ExportEdge.description edge)).

(** The edges in the order in which [edges(keys=True)] yields them. *)
Definition edges_in_view_order (g : Nx.MultiDiGraph) : list (string * string * Edge.t) :=
  n ← (Nx.nodes g).*1;
  nbr ← successors g n;
  map (fun ed => (n, nbr, ed)) (Nx.get_edge_data g n nbr).

Definition export_of_edge (e : string * string * Edge.t) : ExportEdge.t :=
  ExportEdge.mk e.1.1 e.1.2 (Edge.source_columns e.2) (Edge.target_columns e.2)
    (Edge.join_type e.2) (Edge.context e.2) (Edge.description e.2).

(** ** Stage 3: the request for a SQL query *)

(** The line feed and the double quote of the texts below. *)
Definition nl : string := String "010" EmptyString.
Definition dq : string := String "034" EmptyString.

(** The closing text of the request, lines 654-682. *)
Definition sql_instructions : string :=
  nl +:+
  nl +:+
  "INSTRUCTIONS FOR SQL GENERATION:" +:+ nl +:+
  nl +:+
  "1. JOIN CONDITIONS - ABSOLUTELY CRITICAL:" +:+ nl +:+
  "   - Copy the EXACT join condition from above into your ON clause" +:+ nl +:+
  "   - If you see " +:+ dq +:+ " AND " +:+ dq +:+ " in the join condition, that means MULTIPLE conditions - use ALL of them" +:+ nl +:+
  "   - DO NOT simplify or omit any part of the join condition" +:+ nl +:+
  "   - DO NOT use only one part of a multi-part join condition" +:+ nl +:+
  nl +:+
  "2. SELECT relevant columns based on the user query" +:+ nl +:+
  nl +:+
  "3. Include appropriate WHERE clauses if needed" +:+ nl +:+
  nl +:+
  "4. Use table aliases for readability" +:+ nl +:+
  nl +:+
  "5. Format properly with indentation" +:+ nl +:+
  nl +:+
  "EXAMPLE OF CORRECT JOIN USAGE:" +:+ nl +:+
  "If the join condition provided is:" +:+ nl +:+
  dq +:+ "Counterparty.Entity = Trade.Entity AND Counterparty.Counterparty ID = Trade.Reporting Counterparty ID" +:+ dq +:+ nl +:+
  nl +:+
  "Your ON clause MUST be:" +:+ nl +:+
  "ON c.Entity = t.Entity AND c." +:+ dq +:+ "Counterparty ID" +:+ dq +:+ " = t." +:+ dq +:+ "Reporting Counterparty ID" +:+ dq +:+ nl +:+
  nl +:+
  "NOT just: ON c." +:+ dq +:+ "Counterparty ID" +:+ dq +:+ " = t." +:+ dq +:+ "Reporting Counterparty ID" +:+ dq +:+ "  (WRONG - missing Entity)" +:+ nl +:+
  "NOT just: ON c.Entity = t.Entity  (WRONG - missing Counterparty ID)" +:+ nl +:+
  nl +:+
  "Return ONLY the SQL query without any explanations, markdown formatting, or code blocks.".

Definition system_instruction : string :=
  "You are a SQL expert. Generate accurate, well-formatted SQL queries " +:+
  "based on provided schema and join information. CRITICAL: You MUST use " +:+
  "ALL parts of every join condition provided - never omit any condition. " +:+
  "Return only the SQL query without any markdown formatting or " +:+
  "explanations.".

(** One pass of the loop of lines 635-645. *)
Definition join_context (context : string) (join : Join.t) : string :=
  let context :=
    context +:+ nl +:+ Join.from_table join +:+ " " +:+ Join.join_type join +:+
    " JOIN " +:+ Join.to_table join in
  let context := context +:+ nl +:+ "ON " +:+ Join.join_condition join in
  let context :=
    if Py.contains " AND " (Join.join_condition join)
    then context +:+ nl +:+
         "*** THIS IS A COMPOSITE JOIN - YOU MUST USE ALL CONDITIONS: " +:+
         Join.join_condition join +:+ " ***"
    else context in
  let context :=
    if bool_decide (Join.description join ≠ "")
    then context +:+ nl +:+ "(" +:+ Join.description join +:+ ")"
    else context in
  context +:+ nl.

(** One pass of the loop of lines 649-652. *)
Definition schema_context (context : string) (item : string * list Column.t) : string :=
  let table := item.1 in
  let columns := item.2 in
  let context := context +:+ nl +:+ table +:+ ":" +:+ nl in
  foldl (fun context col =>
           context +:+ "  - " +:+ Column.name col +:+ ": " +:+ Column.description col +:+ nl)
        context columns.

(** The text [context] that [generate_sql] sends, lines 626-682. *)
Definition sql_prompt (user_query : string) (join_info : JoinInfo.t) : string :=
  let context :=
    "Generate a SQL query for the following request." +:+ nl +:+
    nl +:+
    "USER QUERY: " +:+ dq +:+ user_query +:+ dq +:+ nl +:+
    nl +:+
    "TABLES TO USE: " +:+ Py.join ", " (JoinInfo.all_tables_needed join_info) +:+ nl +:+
    nl +:+
    "JOIN RELATIONSHIPS:" +:+ nl in
  let context := foldl join_context context (JoinInfo.joins join_info) in
  let context :=
    context +:+ nl +:+ nl +:+ "TABLE SCHEMAS (with all columns and descriptions):" +:+ nl in
  let context := foldl schema_context context (JoinInfo.schemas join_info) in
  context +:+ sql_instructions.

(** Lines 689-697 of [generate_sql]: the answer without its code fence. *)
Definition clean_sql (sql_query : string) : string :=
  let sql_query := Py.strip sql_query in
  let sql_query :=
    if Py.startswith sql_query "```sql" then Py.slice_from sql_query 6
    else if Py.startswith sql_query "```" then Py.slice_from sql_query 3
    else sql_query in
  let sql_query :=
    if Py.endswith sql_query "```" then Py.slice_to_minus sql_query 3
    else sql_query in
  Py.strip sql_query.

Section Stage3.

(** [self.llm.call(prompt, system_instruction)], the answer of the
    collaborator. *)
Variable llm_call : string -> string -> string.

(** [generate_sql], lines 623-697 *)
Definition generate_sql (user_query : string) (join_info : JoinInfo.t) : string :=
  let context := sql_prompt user_query join_info in
  let sql_query := llm_call context system_instruction in
  clean_sql sql_query.

End Stage3.

(** * Properties *)

Ltac by_computation := apply (bool_decide_unpack _); vm_compute; exact I.

(** ** Loops whose body leaves the object alone *)

Section Loops.
Context {A S : Type}.

Lemma for_each_pure (f : S -> A -> S) (body : S -> A -> M S) xs self :
  (∀ acc x, body acc x self = (Returns (f acc x), self)) →
  ∀ acc, for_each xs acc body self = (Returns (foldl f acc xs), self).
Proof.
  intros Hbody. induction xs as [|x xs IH]; intros acc; simpl.
  - reflexivity.
  - unfold mbind, M_bind. rewrite Hbody. apply IH.
Qed.

End Loops.

Lemma foldl_app_bind {A B} (f : list B -> A -> list B) (h : A -> list B) xs :
  (∀ acc x, f acc x = acc ++ h x) →
  ∀ acc, foldl f acc xs = acc ++ (xs ≫= h).
Proof.
  intros Hf. induction xs as [|x xs IH]; intros acc; simpl.
  - by rewrite app_nil_r.
  - rewrite IH, Hf. by rewrite <- app_assoc.
Qed.

Lemma bind_ext_in {A B} (f g : A -> list B) (xs : list A) :
  (∀ x, x ∈ xs → f x = g x) → xs ≫= f = xs ≫= g.
Proof.
  induction xs as [|x xs IH]; intros Hfg; simpl.
  - reflexivity.
  - rewrite Hfg by left. f_equal. apply IH. intros; apply Hfg. by right.
Qed.

(** ** Index loops and pairs *)

Lemma bind_seq_lookup {A B} (k : A -> list B) (pre r : list A) `{Inhabited A} :
  seq (length pre) (length r) ≫= (fun j => k ((pre ++ r) !!! j)) = r ≫= k.
Proof.
  revert pre. induction r as [|x r IH]; intros pre.
  - reflexivity.
  - cbn [length seq]. rewrite !bind_cons. f_equal.
    + f_equal. rewrite list_lookup_total_middle; done.
    + specialize (IH (pre ++ [x])).
      assert (length (pre ++ [x]) = S (length pre)) as E1
        by (rewrite length_app; simpl; lia).
      rewrite E1, <- (app_assoc pre [x] r) in IH. exact IH.
Qed.

Lemma bind_pair_map {A B} (h : A * A -> list B) (x : A) (r : list A) :
  r ≫= (fun y => h (x, y)) = map (pair x) r ≫= h.
Proof.
  induction r as [|y r IH]; [done|].
  cbn [map]. rewrite !bind_cons. by rewrite IH.
Qed.

Lemma bind_seq_pairs {A B} (h : A * A -> list B) (pre l : list A) `{Inhabited A} :
  seq (length pre) (length l) ≫=
    (fun i => seq (i + 1) (length (pre ++ l) - (i + 1)) ≫=
                (fun j => h ((pre ++ l) !!! i, (pre ++ l) !!! j)))
  = pairs l ≫= h.
Proof.
  revert pre. induction l as [|x r IH]; intros pre.
  - reflexivity.
  - assert (length (pre ++ [x]) = S (length pre)) as E1
      by (rewrite length_app; simpl; lia).
    cbn [length seq pairs]. rewrite bind_cons, bind_app. f_equal.
    + rewrite list_lookup_total_middle by done.
      replace (length (pre ++ x :: r) - (length pre + 1)) with (length r)
        by (rewrite length_app; simpl; lia).
      replace (length pre + 1) with (S (length pre)) by lia.
      pose proof (bind_seq_lookup (fun y => h (x, y)) (pre ++ [x]) r) as E.
      rewrite E1, <- (app_assoc pre [x] r) in E.
      rewrite <- bind_pair_map. exact E.
    + specialize (IH (pre ++ [x])).
      rewrite E1, <- (app_assoc pre [x] r) in IH. exact IH.
Qed.

Lemma bind_range_pairs {A B} (h : A * A -> list B) (l : list A) `{Inhabited A} :
  Py.range 0 (length l) ≫=
    (fun i => Py.range (i + 1) (length l) ≫= (fun j => h (l !!! i, l !!! j)))
  = pairs l ≫= h.
Proof.
  unfold Py.range. rewrite Nat.sub_0_r.
  exact (bind_seq_pairs h [] l).
Qed.

(** ** What [get_join_relationships] returns *)

Lemma edge_loop_run context start end_ dict edges rels self :
  for_each edges rels (fun relationships edge_data =>
    if skip_edge context dict edge_data then mret relationships
    else mret (relationships ++ [join_record start end_ edge_data])) self
  = (Returns (rels ++ map (join_record start end_)
                (filter (fun ed => skip_edge context dict ed = false) edges)), self).
Proof.
  revert rels. induction edges as [|ed edges IH]; intros rels; simpl.
  - by rewrite app_nil_r.
  - unfold mbind, M_bind. rewrite filter_cons.
    destruct (skip_edge context dict ed) eqn:E; simpl.
    + apply IH.
    + rewrite IH. by rewrite <- app_assoc.
Qed.

Lemma has_edge_false g u v : Nx.has_edge g u v = false → Nx.get_edge_data g u v = [].
Proof.
  unfold Nx.has_edge. intros E%bool_decide_eq_false.
  destruct (Nx.get_edge_data g u v); [done|]. by destruct E.
Qed.

Lemma direction_run context start end_ rels self :
  (g ← self_graph;
   if Nx.has_edge g start end_ then
     let edges_dict := Nx.get_edge_data g start end_ in
     for_each edges_dict rels (fun relationships edge_data =>
       if skip_edge context edges_dict edge_data then mret relationships
       else mret (relationships ++ [join_record start end_ edge_data]))
   else mret rels) self
  = (Returns (rels ++ joins_from (graph self) context start end_), self).
Proof.
  unfold mbind, M_bind, self_graph. cbv beta iota zeta.
  unfold joins_from, kept_edges.
  destruct (Nx.has_edge (graph self) start end_) eqn:E.
  - apply edge_loop_run.
  - rewrite (has_edge_false _ _ _ E). by rewrite app_nil_r.
Qed.

Lemma get_join_relationships_run tables context self :
  get_join_relationships tables context self
  = (Returns (pairs tables ≫= joins_of_pair (graph self) context), self).
Proof.
  unfold get_join_relationships.
  rewrite (for_each_pure
    (fun rels i => rels ++ (Py.range (i + 1) (length tables) ≫= (fun j =>
       joins_of_pair (graph self) context (tables !!! i, tables !!! j))))).
  - rewrite (foldl_app_bind _ (fun i => Py.range (i + 1) (length tables) ≫= (fun j =>
       joins_of_pair (graph self) context (tables !!! i, tables !!! j)))) by done.
    by rewrite (bind_range_pairs (joins_of_pair (graph self) context) tables).
  - intros rels i.
    rewrite (for_each_pure
      (fun rels j => rels ++ joins_of_pair (graph self) context (tables !!! i, tables !!! j))).
    + by rewrite (foldl_app_bind _ (fun j =>
        joins_of_pair (graph self) context (tables !!! i, tables !!! j))).
    + intros rels' j. cbn [for_each]. unfold mbind at 1, M_bind at 1.
      rewrite direction_run. unfold mbind at 1, M_bind at 1.
      rewrite direction_run. unfold mret, M_ret, joins_of_pair. simpl.
      by rewrite <- app_assoc.
Qed.

(** ** Each unordered pair of distinct tables is visited once *)

Lemma bind_nil_all {A B} (f : A -> list B) (l : list A) :
  (∀ x, x ∈ l → f x = []) → l ≫= f = [].
Proof.
  induction l as [|x l IH]; intros Hf; [done|].
  rewrite bind_cons, Hf by left. apply IH. intros; apply Hf. by right.
Qed.

Lemma bind_only_one {A B} (f : A -> list B) (l : list A) (b : A) :
  NoDup l → b ∈ l → (∀ y, y ∈ l → y ≠ b → f y = []) → l ≫= f = f b.
Proof.
  induction l as [|x l IH]; intros Hnd Hin Hf.
  - by apply elem_of_nil in Hin.
  - apply NoDup_cons in Hnd as [Hx Hnd]. rewrite bind_cons.
    apply elem_of_cons in Hin as [->|Hin].
    + rewrite bind_nil_all; [by rewrite app_nil_r|].
      intros y Hy. apply Hf; [by right|]. intros ->. done.
    + rewrite Hf; [|by left|by intros ->]. simpl.
      apply IH; [done..|]. intros y Hy. apply Hf. by right.
Qed.

Lemma filter_bind {A B} (P : B -> Prop) `{∀ x, Decision (P x)}
    (f : A -> list B) (l : list A) :
  filter P (l ≫= f) = l ≫= (fun x => filter P (f x)).
Proof.
  induction l as [|x l IH]; [done|].
  by rewrite !bind_cons, filter_app, IH.
Qed.

Lemma elem_of_pairs {A} (l : list A) (x y : A) :
  (x, y) ∈ pairs l → x ∈ l ∧ y ∈ l.
Proof.
  induction l as [|z l IH]; simpl.
  - by intros ?%elem_of_nil.
  - intros [H|H]%elem_of_app.
    + apply list_elem_of_fmap in H as (w & [= -> ->] & Hw).
      split; [by left|by right].
    + destruct (IH H). split; by right.
Qed.

Lemma elem_of_pairs_lookup {A} (l : list A) (x y : A) :
  (x, y) ∈ pairs l ↔ ∃ i j, i < j ∧ l !! i = Some x ∧ l !! j = Some y.
Proof.
  induction l as [|z l IH]; simpl.
  - split; [by intros ?%elem_of_nil|]. by intros (i & j & _ & ? & _).
  - rewrite elem_of_app, IH, list_elem_of_fmap. split.
    + intros [(w & [= -> ->] & (j & Hj)%list_elem_of_lookup)|(i & j & Hij & Hi & Hj)].
      * exists 0, (S j). repeat split; [lia|done..].
      * exists (S i), (S j). repeat split; [lia|done..].
    + intros (i & j & Hij & Hi & Hj).
      destruct j as [|j]; [lia|]. simpl in Hj. destruct i as [|i]; simpl in Hi.
      * left. exists y. split; [congruence|]. by eapply list_elem_of_lookup_2.
      * right. exists i, j. repeat split; [lia|done..].
Qed.

Section Once.
Context {B : Type} (J : list B) (a b : string).

Lemma pairs_once (l : list string) :
  NoDup l → a ∈ l → b ∈ l → a ≠ b → pairs l ≫= share J a b = J.
Proof.
  induction l as [|x r IH]; intros Hnd Ha Hb Hab.
  - by apply elem_of_nil in Ha.
  - apply NoDup_cons in Hnd as [Hx Hnd]. cbn [pairs]. rewrite bind_app.
    apply elem_of_cons in Ha as [Ha|Ha]; apply elem_of_cons in Hb as [Hb|Hb];
      subst; try done.
    + rewrite <- bind_pair_map.
      rewrite (bind_only_one _ r b Hnd Hb).
      * rewrite (bind_nil_all (share J _ _) (pairs r)).
        { unfold share. rewrite decide_True by done.
          rewrite decide_False by congruence. by rewrite !app_nil_r. }
        intros [u v] [Hu Hv]%elem_of_pairs. unfold share.
        rewrite !decide_False; [done|intros [= -> ->]; done..].
      * intros y _ Hy. unfold share.
        rewrite !decide_False; [done|congruence..].
    + rewrite <- bind_pair_map.
      rewrite (bind_only_one _ r a Hnd Ha).
      * rewrite (bind_nil_all (share J _ _) (pairs r)).
        { unfold share. rewrite decide_False by congruence.
          rewrite decide_True by done. by rewrite !app_nil_r. }
        intros [u v] [Hu Hv]%elem_of_pairs. unfold share.
        rewrite !decide_False; [done|intros [= -> ->]; done..].
      * intros y _ Hy. unfold share.
        rewrite !decide_False; [done|congruence..].
    + rewrite <- bind_pair_map. rewrite bind_nil_all.
      * by apply IH.
      * intros y Hy. unfold share.
        rewrite !decide_False; [done|intros [= -> ->]; done..].
Qed.
End Once.

Lemma joins_from_ends g context start end_ r :
  r ∈ joins_from g context start end_ →
  Join.from_table r = start ∧ Join.to_table r = end_.
Proof.
  unfold joins_from. intros (ed & -> & _)%list_elem_of_fmap. done.
Qed.

Lemma filter_all {A} (P : A -> Prop) `{∀ x, Decision (P x)} (l : list A) :
  (∀ x, x ∈ l → P x) → filter P l = l.
Proof.
  induction l as [|x l IH]; intros HP; [done|].
  rewrite filter_cons, decide_True by (apply HP; left).
  f_equal. apply IH. intros; apply HP. by right.
Qed.

Lemma filter_none {A} (P : A -> Prop) `{∀ x, Decision (P x)} (l : list A) :
  (∀ x, x ∈ l → ¬ P x) → filter P l = [].
Proof.
  induction l as [|x l IH]; intros HP; [done|].
  rewrite filter_cons, decide_False by (apply HP; left).
  apply IH. intros; apply HP. by right.
Qed.

(** The records from [a] to [b] in the result are those of the edges kept in
    that direction. *)
Lemma joins_directed g context tables a b :
  NoDup tables → a ∈ tables → b ∈ tables → a ≠ b →
  filter (directed a b) (pairs tables ≫= joins_of_pair g context)
  = joins_from g context a b.
Proof.
  intros Hnd Ha Hb Hab. rewrite filter_bind.
  etrans; [|exact (pairs_once (joins_from g context a b) a b tables Hnd Ha Hb Hab)].
  apply bind_ext_in. intros [x y] _. unfold joins_of_pair, share. simpl.
  rewrite filter_app. f_equal.
  - destruct (decide ((x, y) = (a, b))) as [[= -> ->]|Hne].
    + apply filter_all. intros r. apply joins_from_ends.
    + apply filter_none. intros r [??]%joins_from_ends [??]. congruence.
  - destruct (decide ((x, y) = (b, a))) as [[= -> ->]|Hne].
    + apply filter_all. intros r. apply joins_from_ends.
    + apply filter_none. intros r [??]%joins_from_ends [??]. congruence.
Qed.

Lemma get_join_relationships_returns tables context self :
  (get_join_relationships tables context self).1
  = Returns (pairs tables ≫= joins_of_pair (graph self) context).
Proof. by rewrite get_join_relationships_run. Qed.

Lemma filter_either_length {A} (P Q R : A -> Prop)
    `{∀ x, Decision (P x)} `{∀ x, Decision (Q x)} `{∀ x, Decision (R x)}
    (l : list A) :
  (∀ x, R x ↔ P x ∨ Q x) → (∀ x, P x → Q x → False) →
  length (filter R l) = length (filter P l) + length (filter Q l).
Proof.
  intros HR Hdisj. induction l as [|x l IH]; [done|].
  rewrite !filter_cons.
  destruct (decide (P x)) as [HP|HP], (decide (Q x)) as [HQ|HQ].
  - destruct (Hdisj x HP HQ).
  - rewrite decide_True by (apply HR; auto). simpl. by rewrite IH.
  - rewrite decide_True by (apply HR; auto). simpl. rewrite IH. lia.
  - rewrite decide_False by (rewrite HR; tauto). done.
Qed.

Lemma kept_edges_None g start end_ :
  kept_edges g None start end_ = Nx.get_edge_data g start end_.
Proof. unfold kept_edges. by apply filter_all. Qed.

Lemma joins_from_None g start end_ :
  joins_from g None start end_ = map (join_record start end_) (Nx.get_edge_data g start end_).
Proof. unfold joins_from. by rewrite kept_edges_None. Qed.

(** ** The context filter on a default edge *)



Lemma record_in_result g context tables a b ed :
  NoDup tables → a ∈ tables → b ∈ tables → a ≠ b →
  join_record a b ed ∈ pairs tables ≫= joins_of_pair g context
  ↔ join_record a b ed ∈ joins_from g context a b.
Proof.
  intros Hnd Ha Hb Hab.
  rewrite <- (joins_directed g context tables a b Hnd Ha Hb Hab).
  rewrite list_elem_of_filter. unfold directed. simpl. tauto.
Qed.


(** ** Join records without a context *)

(** C5. With no context, for two distinct tables of a duplicate-free list the
    records returned between them are as many as the edges recorded between
    them in both directions together, and every such edge has its record in
    the result. *)
Theorem C5_no_context_keeps_every_edge (self : TableKnowledgeGraph)
    (tables : list string) (a b : string) :
  NoDup tables → a ∈ tables → b ∈ tables → a ≠ b →
  ∃ result,
    (get_join_relationships tables None self).1 = Returns result ∧
    length (filter (between a b) result)
    = length (Nx.get_edge_data (graph self) a b)
      + length (Nx.get_edge_data (graph self) b a) ∧
    (∀ ed, ed ∈ Nx.get_edge_data (graph self) a b → join_record a b ed ∈ result) ∧
    (∀ ed, ed ∈ Nx.get_edge_data (graph self) b a → join_record b a ed ∈ result).
Proof.
  intros Hnd Ha Hb Hab. eexists. split; [apply get_join_relationships_returns|].
  pose proof (joins_directed (graph self) None tables a b Hnd Ha Hb Hab) as Eab.
  pose proof (joins_directed (graph self) None tables b a Hnd Hb Ha (not_eq_sym Hab)) as Eba.
  rewrite joins_from_None in Eab, Eba.
  split; [|split].
  - rewrite (filter_either_length (directed a b) (directed b a) (between a b)).
    + by rewrite Eab, Eba, !length_map.
    + done.
    + intros r [E1 _] [E2 _]. apply Hab. congruence.
  - intros ed Hed.
    assert (join_record a b ed ∈ map (join_record a b) (Nx.get_edge_data (graph self) a b)) as Hin
      by (apply list_elem_of_fmap; eauto).
    rewrite <- Eab in Hin. by apply list_elem_of_filter in Hin as [_ ?].
  - intros ed Hed.
    assert (join_record b a ed ∈ map (join_record b a) (Nx.get_edge_data (graph self) b a)) as Hin
      by (apply list_elem_of_fmap; eauto).
    rewrite <- Eba in Hin. by apply list_elem_of_filter in Hin as [_ ?].
Qed.

Lemma NoDup_two {A} (x y : A) : x ≠ y → NoDup [x; y].
Proof.
  intros Hxy. apply NoDup_cons. split.
  - by intros ->%list_elem_of_singleton.
  - apply NoDup_singleton.
Qed.

Lemma C5_witness :
  NoDup ["Counterparty"; "Concentration"] ∧
  ∃ result,
    (get_join_relationships ["Counterparty"; "Concentration"] None sample_kg).1
    = Returns result ∧
    length (filter (between "Counterparty" "Concentration") result)
    = length (Nx.get_edge_data (graph sample_kg) "Counterparty" "Concentration")
      + length (Nx.get_edge_data (graph sample_kg) "Concentration" "Counterparty") ∧
    (∀ ed, ed ∈ Nx.get_edge_data (graph sample_kg) "Counterparty" "Concentration" →
           join_record "Counterparty" "Concentration" ed ∈ result) ∧
    (∀ ed, ed ∈ Nx.get_edge_data (graph sample_kg) "Concentration" "Counterparty" →
           join_record "Concentration" "Counterparty" ed ∈ result).
Proof.
  assert (NoDup ["Counterparty"; "Concentration"]) as Hnd by (by apply NoDup_two).
  split; [exact Hnd|].
  apply (C5_no_context_keeps_every_edge sample_kg
           ["Counterparty"; "Concentration"] "Counterparty" "Concentration").
  - exact Hnd.
  - by left.
  - right. by left.
  - done.
Defined.

(** ** The default edge as a fallback *)




(** ** Graph construction *)

Lemma update_loop_run {A} (F : A -> Nx.MultiDiGraph -> Nx.MultiDiGraph) xs self :
  for_each xs tt (fun _ x => update_graph (F x)) self
  = (Returns tt,
     mkKG (foldl (fun g x => F x g) (graph self) xs) (schemas self) (relationships self)).
Proof.
  revert self. induction xs as [|x xs IH]; intros self; simpl.
  - by destruct self.
  - unfold mbind, M_bind, update_graph at 1. by rewrite IH.
Qed.

Lemma build_graph_run tabs rels :
  _build_graph (mkKG Nx.empty tabs rels)
  = (Returns tt,
     mkKG (foldl add_relationship (foldl add_schema Nx.empty tabs) rels) tabs rels).
Proof.
  unfold _build_graph, mbind, M_bind, self_schemas, self_relationships.
  cbn [schemas relationships].
  pose proof (update_loop_run (fun item g => add_schema g item)
                tabs (mkKG Nx.empty tabs rels)) as E1.
  unfold add_schema in E1 at 1. cbv beta zeta in E1 |- *. rewrite E1. clear E1.
  cbn [schemas relationships graph].
  pose proof (update_loop_run (fun rel g => add_relationship g rel) rels
                (mkKG (foldl add_schema Nx.empty tabs) tabs rels)) as E2.
  unfold add_relationship in E2 at 1. unfold edge_of_rel in E2 at 1 2 3.
  cbn [fst snd] in E2. cbv beta zeta in E2. exact E2.
Qed.

Lemma init_graph tabs rels :
  graph (__init__ tabs rels)
  = foldl add_relationship (foldl add_schema Nx.empty tabs) rels.
Proof. unfold __init__. by rewrite build_graph_run. Qed.

Lemma add_node_edges g n cols : Nx.edges (Nx.add_node g n cols) = Nx.edges g.
Proof. unfold Nx.add_node. by destruct (Nx.has_node g n). Qed.

Lemma touch_node_edges g n : Nx.edges (Nx.touch_node g n) = Nx.edges g.
Proof. unfold Nx.touch_node. by destruct (Nx.has_node g n). Qed.

Lemma add_edge_edges g u v attrs :
  Nx.edges (Nx.add_edge g u v attrs) = Nx.edges g ++ [(u, v, attrs)].
Proof. unfold Nx.add_edge. simpl. by rewrite !touch_node_edges. Qed.

Lemma add_schemas_edges g tabs : Nx.edges (foldl add_schema g tabs) = Nx.edges g.
Proof.
  revert g. induction tabs as [|item tabs IH]; intros g; simpl; [done|].
  rewrite IH. apply add_node_edges.
Qed.

Lemma add_relationships_edges g rels :
  Nx.edges (foldl add_relationship g rels) = Nx.edges g ++ map edge_of_rel rels.
Proof.
  revert g. induction rels as [|rel rels IH]; intros g; simpl.
  - by rewrite app_nil_r.
  - rewrite IH. unfold add_relationship at 1. rewrite add_edge_edges.
    rewrite <- app_assoc. cbn [app]. by destruct (edge_of_rel rel) as [[??]?].
Qed.

Lemma init_edges tabs rels :
  Nx.edges (graph (__init__ tabs rels)) = map edge_of_rel rels.
Proof.
  by rewrite init_graph, add_relationships_edges, add_schemas_edges.
Qed.



(** ** Rendering of join conditions *)

Lemma zip_seq {A B C} `{Inhabited A} `{Inhabited B} (f : A * B -> C)
    (xs : list A) (ys : list B) :
  map f (Py.zip xs ys)
  = map (fun k => f (xs !!! k, ys !!! k)) (seq 0 (length xs `min` length ys)).
Proof.
  revert ys. induction xs as [|x xs IH]; intros [|y ys]; simpl; try done.
  f_equal. rewrite IH, <- fmap_S_seq, <- list_fmap_compose. done.
Qed.

Lemma join_record_condition start end_ ed :
  Join.join_condition (join_record start end_ ed)
  = Py.join " AND "
      (map (equality_at start end_ ed)
           (seq 0 (length (Edge.source_columns ed) `min` length (Edge.target_columns ed)))).
Proof.
  unfold join_record. cbn [Join.join_condition]. f_equal.
  apply (zip_seq (fun st => start +:+ "." +:+ st.1 +:+ " = " +:+ end_ +:+ "." +:+ st.2)).
Qed.

Lemma record_origin g context tables r :
  r ∈ pairs tables ≫= joins_of_pair g context →
  ∃ ed, ed ∈ Nx.get_edge_data g (Join.from_table r) (Join.to_table r)
        ∧ r = join_record (Join.from_table r) (Join.to_table r) ed.
Proof.
  intros ([a b] & Hr & _)%list_elem_of_bind.
  unfold joins_of_pair, joins_from, kept_edges in Hr. simpl in Hr.
  apply elem_of_app in Hr as [Hr|Hr];
    apply list_elem_of_fmap in Hr as (ed & -> & [_ Hed]%list_elem_of_filter);
    exists ed; done.
Qed.

(** C6. Every returned record stems from an edge recorded from its
    [from_table] to its [to_table], and when the two column lists of that edge
    have the same length [n] its condition is the [n] equalities
    [from.source = to.target], in the order of the columns, joined by AND. *)
Theorem C6_condition_of_equal_lengths (self : TableKnowledgeGraph)
    (tables : list string) (context : option string)
    (result : list Join.t) (r : Join.t) :
  (get_join_relationships tables context self).1 = Returns result →
  r ∈ result →
  ∃ ed, ed ∈ Nx.get_edge_data (graph self) (Join.from_table r) (Join.to_table r) ∧
        Join.context r = Edge.context ed ∧
        ∀ n, length (Edge.source_columns ed) = n →
             length (Edge.target_columns ed) = n →
             Join.join_condition r
             = Py.join " AND "
                 (map (equality_at (Join.from_table r) (Join.to_table r) ed) (seq 0 n)).
Proof.
  rewrite get_join_relationships_returns. intros [= <-] Hr.
  apply record_origin in Hr as (ed & Hed & Hrec).
  exists ed. split; [done|]. split; [by rewrite Hrec|].
  intros n Hs Ht. rewrite Hrec at 1. rewrite join_record_condition.
  by rewrite Hs, Ht, Nat.min_id.
Qed.

Lemma C6_witness :
  let r := Join.mk "Counterparty" "Trade"
             "Counterparty.Entity = Trade.Entity AND Counterparty.Counterparty ID = Trade.Reporting Counterparty ID"
             "INNER" "default" "Join Counterparty with Trade" in
  (get_join_relationships ["Counterparty"; "Trade"] None sample_kg).1 = Returns [r] ∧
  r ∈ [r] ∧
  ∃ ed, ed ∈ Nx.get_edge_data (graph sample_kg) "Counterparty" "Trade" ∧
        Join.context r = Edge.context ed ∧
        ∀ n, length (Edge.source_columns ed) = n →
             length (Edge.target_columns ed) = n →
             Join.join_condition r
             = Py.join " AND " (map (equality_at "Counterparty" "Trade" ed) (seq 0 n)).
Proof.
  intros r.
  assert ((get_join_relationships ["Counterparty"; "Trade"] None sample_kg).1 = Returns [r])
    as Hrun by reflexivity.
  assert (r ∈ [r]) as Hin by left.
  split; [exact Hrun|]. split; [exact Hin|].
  exact (C6_condition_of_equal_lengths sample_kg ["Counterparty"; "Trade"] None [r] r
           Hrun Hin).
Defined.


(** The join of a two-column key with a one-column key, as it is rendered: the
    second column of the longer key is gone. *)
Example lopsided_join_rendering :
  (get_join_relationships ["Counterparty"; "Trade"] None lopsided_kg).1
  = Returns [Join.mk "Counterparty" "Trade"
               "Counterparty.Entity = Trade.Reporting Counterparty ID"
               "INNER" "default" "Join Counterparty with Trade"].
Proof. reflexivity. Qed.

(** ** The country example *)



(** ** Breadth-first search *)

Lemma elem_of_neighbors g u v :
  v ∈ Nx.neighbors (Nx.to_undirected g) u ↔ adjacent g u v.
Proof.
  unfold Nx.neighbors, adjacent. rewrite list_elem_of_bind. simpl. split.
  - intros (e & Hv & He). exists e. split; [done|].
    apply elem_of_app in Hv as [Hv|Hv]; case_bool_decide as Hu;
      try (by apply elem_of_nil in Hv);
      apply list_elem_of_singleton in Hv; subst; auto.
  - intros (e & He & [[Hu Hv]|[Hv Hu]]); exists e; (split; [|done]);
      apply elem_of_app.
    + left. rewrite bool_decide_true by done. subst. by left.
    + right. rewrite bool_decide_true by done. subst. by left.
Qed.

Lemma adjacent_sym g u v : adjacent g u v → adjacent g v u.
Proof. intros (e & He & Hc). exists e. tauto. Qed.

Lemma adjacent_nodes g u v :
  closed_graph g → adjacent g u v → u ∈ (Nx.nodes g).*1 ∧ v ∈ (Nx.nodes g).*1.
Proof.
  intros Hcl (e & He & Hc). destruct (Hcl e He) as [H1 H2].
  destruct Hc as [[<- <-]|[<- <-]]; done.
Qed.

Section Expand.
Variables (g : Nx.MultiDiGraph) (seen : list string).
Let G := Nx.to_undirected g.

Lemma visit_incl u pre next v x :
  x ∈ next → x ∈ Nx.visit seen u pre next v.
Proof.
  unfold Nx.visit. destruct (Nx.visited seen next v); [done|].
  intros. apply elem_of_app. by left.
Qed.

Lemma visit_covers u pre next v :
  v ∈ seen ∨ v ∈ (Nx.visit seen u pre next v).*1.
Proof.
  unfold Nx.visit, Nx.visited.
  destruct (bool_decide (v ∈ seen)) eqn:E1; simpl.
  - left. by apply bool_decide_eq_true in E1.
  - destruct (bool_decide (v ∈ next.*1)) eqn:E2.
    + right. by apply bool_decide_eq_true in E2.
    + right. rewrite fmap_app. apply elem_of_app. right. by left.
Qed.

Lemma visit_origin u pre next v x :
  x ∈ Nx.visit seen u pre next v →
  x ∈ next ∨ (x = (v, u :: pre) ∧ (v ∉ seen) ∧ (v ∉ next.*1)).
Proof.
  unfold Nx.visit, Nx.visited.
  destruct (bool_decide (v ∈ seen)) eqn:E1; simpl; [by left|].
  destruct (bool_decide (v ∈ next.*1)) eqn:E2; [by left|].
  apply bool_decide_eq_false in E1, E2.
  intros [?|Hx]%elem_of_app; [by left|].
  apply list_elem_of_singleton in Hx. by right.
Qed.

Lemma visit_NoDup u pre next v :
  NoDup next.*1 → NoDup (Nx.visit seen u pre next v).*1.
Proof.
  unfold Nx.visit, Nx.visited. intros Hnd.
  destruct (bool_decide (v ∈ seen)) eqn:E1; simpl; [done|].
  destruct (bool_decide (v ∈ next.*1)) eqn:E2; [done|].
  apply bool_decide_eq_false in E2.
  rewrite fmap_app. apply NoDup_app. split; [done|]. split.
  - intros x Hx ->%list_elem_of_singleton. done.
  - apply NoDup_singleton.
Qed.

(** One node of the frontier, over any list of neighbours. *)
Lemma visit_all u pre ns next :
  let next' := foldl (Nx.visit seen u pre) next ns in
  (∀ x, x ∈ next → x ∈ next') ∧
  (∀ v, v ∈ ns → v ∈ seen ∨ v ∈ next'.*1) ∧
  (∀ x, x ∈ next' → x ∈ next ∨ ∃ v, x = (v, u :: pre) ∧ v ∈ ns ∧ v ∉ seen) ∧
  (NoDup next.*1 → NoDup next'.*1).
Proof.
  revert next. induction ns as [|v ns IH]; intros next; simpl.
  - repeat split; auto. by intros v ?%elem_of_nil.
  - destruct (IH (Nx.visit seen u pre next v)) as (H1 & H2 & H3 & H4).
    repeat split.
    + intros x Hx. by apply H1, visit_incl.
    + intros w [->|Hw]%elem_of_cons; [|by apply H2].
      destruct (visit_covers u pre next v) as [?|Hin]; [by left|right].
      apply list_elem_of_fmap in Hin as ([w' p] & -> & Hin).
      apply list_elem_of_fmap. exists (w', p). split; [done|]. by apply H1.
    + intros x [Hx|(w & -> & Hw & Hs)]%H3.
      * apply visit_origin in Hx as [?|(-> & Hs & _)]; [by left|].
        right. exists v. repeat split; [by left|done].
      * right. exists w. repeat split; [by right|done].
    + intros Hnd. by apply H4, visit_NoDup.
Qed.

(** A whole level. *)
Lemma expand_all frontier next :
  let next' := foldl (Nx.expand_node G seen) next frontier in
  (∀ x, x ∈ next → x ∈ next') ∧
  (∀ u pre v, (u, pre) ∈ frontier → v ∈ Nx.neighbors G u → v ∈ seen ∨ v ∈ next'.*1) ∧
  (∀ x, x ∈ next' →
     x ∈ next ∨ ∃ u pre v, x = (v, u :: pre) ∧ (u, pre) ∈ frontier
                           ∧ v ∈ Nx.neighbors G u ∧ v ∉ seen) ∧
  (NoDup next.*1 → NoDup next'.*1).
Proof.
  revert next. induction frontier as [|[u pre] frontier IH]; intros next; simpl.
  - repeat split; auto. by intros u pre v ?%elem_of_nil.
  - destruct (IH (Nx.expand_node G seen next (u, pre))) as (H1 & H2 & H3 & H4).
    destruct (visit_all u pre (Nx.neighbors G u) next) as (V1 & V2 & V3 & V4).
    repeat split.
    + intros x Hx. by apply H1, V1.
    + intros u' pre' v [[= -> ->]|Hin]%elem_of_cons Hv; [|by eapply H2].
      destruct (V2 v Hv) as [?|Hin]; [by left|right].
      apply list_elem_of_fmap in Hin as ([w' p] & -> & Hin).
      apply list_elem_of_fmap. exists (w', p). split; [done|]. by apply H1.
    + intros x [Hx|(u' & pre' & v & -> & Hin & Hv & Hs)]%H3.
      * apply V3 in Hx as [?|(v & -> & Hv & Hs)]; [by left|].
        right. exists u, pre, v. repeat split; [by left|done..].
      * right. exists u', pre', v. repeat split; [by right|done..].
    + intros Hnd. by apply H4, V4.
Qed.

Lemma expand_spec frontier :
  let next := Nx.expand G seen frontier in
  (∀ v, v ∈ next.*1 ↔
        (v ∉ seen) ∧ ∃ u pre, (u, pre) ∈ frontier ∧ v ∈ Nx.neighbors G u) ∧
  (∀ v pre', (v, pre') ∈ next →
        ∃ u pre, pre' = u :: pre ∧ (u, pre) ∈ frontier ∧ v ∈ Nx.neighbors G u) ∧
  NoDup next.*1.
Proof.
  destruct (expand_all frontier []) as (_ & H2 & H3 & H4).
  fold (Nx.expand G seen frontier) in H2, H3, H4. cbv zeta.
  split; [|split].
  - intros v. split.
    + intros ([v' p] & -> & Hin)%list_elem_of_fmap.
      apply H3 in Hin as [?%elem_of_nil|(u & pre & w & [= -> ->] & Hin & Hw & Hs)];
        [done|]. simpl. eauto.
    + intros (Hs & u & pre & Hin & Hv).
      destruct (H2 u pre v Hin Hv); done.
  - intros v pre' Hin.
    apply H3 in Hin as [?%elem_of_nil|(u & pre & w & [= -> ->] & Hin & Hw & Hs)];
      [done|]. eauto.
  - apply H4. constructor.
Qed.

End Expand.

(** ** Paths and levels *)

Lemma chain_snoc g l v :
  chain g (l ++ [v]) ↔
  chain g l ∧ match last l with Some w => adjacent g w v | None => True end.
Proof.
  induction l as [|u l IH]; simpl; [tauto|].
  destruct l as [|w l]; simpl in *; [tauto|].
  rewrite IH. destruct l; simpl; tauto.
Qed.

Lemma chain_reverse g l : chain g l → chain g (reverse l).
Proof.
  induction l as [|u l IH]; [done|].
  rewrite reverse_cons, chain_snoc, last_reverse.
  destruct l as [|w l]; simpl; [done|].
  intros [Hadj Hch]. split; [by apply IH|]. by apply adjacent_sym.
Qed.

Lemma level_succ g source k v :
  v ∈ level g source (S k) ↔ ∃ u, u ∈ level g source k ∧ adjacent g u v.
Proof.
  simpl. rewrite list_elem_of_bind. split.
  - intros (u & Hv & Hu). exists u. by rewrite <- elem_of_neighbors.
  - intros (u & Hu & Hv). exists u. by rewrite elem_of_neighbors.
Qed.

Lemma level_shift g a c b k :
  adjacent g a c → b ∈ level g c k → b ∈ level g a (S k).
Proof.
  intros Hac. revert b. induction k as [|k IH]; intros b Hb.
  - apply list_elem_of_singleton in Hb as ->.
    apply level_succ. exists a. split; [by left|done].
  - apply level_succ in Hb as (u & Hu & Hub).
    apply level_succ. exists u. split; [by apply IH|done].
Qed.

Lemma connects_level g q a b :
  connects g q a b → b ∈ level g a (length q - 1).
Proof.
  intros (Hh & Hl & Hch). revert a Hh Hl Hch.
  induction q as [|x q IH]; intros a Hh Hl Hch; [done|].
  simpl in Hh. injection Hh as ->.
  destruct q as [|c q].
  - simpl in Hl. injection Hl as ->. by left.
  - destruct Hch as [Hac Hch].
    specialize (IH c eq_refl Hl Hch). simpl in IH. rewrite Nat.sub_0_r in IH.
    simpl. by eapply level_shift.
Qed.



Lemma least_fresh g source v m :
  v ∈ level g source m → ∃ d, d ≤ m ∧ fresh g source d v.
Proof.
  induction m as [m IH] using lt_wf_ind. intros Hv.
  destruct (decide (∃ j, j < m ∧ v ∈ level g source j)) as [(j & Hj & Hvj)|Hno].
  - destruct (IH j Hj Hvj) as (d & Hd & Hf). exists d. split; [lia|done].
  - exists m. split; [done|]. split; [done|].
    intros j Hj Hvj. apply Hno. eauto.
Qed.

Lemma fresh_prefix g source d t j :
  fresh g source d t → j ≤ d → ∃ u, fresh g source j u.
Proof.
  intros [Ht Hmin] Hj.
  assert (∀ n m x, x ∈ level g source (n + m) →
            ∃ u, u ∈ level g source n ∧ x ∈ level g u m) as Hsplit.
  { intros n m. induction m as [|m IH]; intros x Hx.
    - rewrite Nat.add_0_r in Hx. exists x. split; [done|by left].
    - replace (n + S m) with (S (n + m)) in Hx by lia.
      apply level_succ in Hx as (w & Hw & Hadj).
      destruct (IH w Hw) as (u & Hu & Hwu).
      exists u. split; [done|]. apply level_succ. eauto. }
  assert (∀ n m u x, u ∈ level g source n → x ∈ level g u m →
            x ∈ level g source (n + m)) as Hjoin.
  { intros n m u x Hu. revert x. induction m as [|m IH]; intros x Hx.
    - apply list_elem_of_singleton in Hx as ->. by rewrite Nat.add_0_r.
    - apply level_succ in Hx as (w & Hw & Hadj).
      replace (n + S m) with (S (n + m)) by lia.
      apply level_succ. exists w. split; [by apply IH|done]. }
  replace d with (j + (d - j)) in Ht by lia.
  destruct (Hsplit j (d - j) t Ht) as (u & Hu & Hut).
  exists u. split; [done|].
  intros i Hi Hui. apply (Hmin (i + (d - j))); [lia|].
  by eapply Hjoin.
Qed.

(** ** The invariant of the search *)

Lemma bfs_inv_init g source :
  source ∈ (Nx.nodes g).*1 → bfs_inv g source 0 [(source, [])] [source].
Proof.
  intros Hs. repeat split.
  - by apply list_elem_of_singleton in H as [= -> ->].
  - by apply list_elem_of_singleton in H as [= -> ->].
  - by apply list_elem_of_singleton in H as [= -> ->].
  - intros Hv. exists 0. split; [done|]. done.
  - intros (j & Hj & Hv). by replace j with 0 in Hv by lia.
  - done.
  - intros j Hj. lia.
  - by intros [Hv _].
  - apply NoDup_singleton.
  - by intros v ->%list_elem_of_singleton.
Qed.

Lemma bfs_inv_step g source k frontier seen :
  closed_graph g →
  bfs_inv g source k frontier seen →
  let next := Nx.expand (Nx.to_undirected g) seen frontier in
  bfs_inv g source (S k) next (seen ++ next.*1).
Proof.
  intros Hcl (I1 & I2 & I3 & I4 & I5) next.
  destruct (expand_spec g seen frontier) as (E1 & E2 & E3).
  fold next in E1, E2, E3.
  assert (∀ v, v ∈ next.*1 ↔ fresh g source (S k) v) as Hnext.
  { intros v. rewrite E1. split.
    - intros (Hs & u & pre & Hin & Hv).
      assert (fresh g source k u) as [Hu _].
      { apply I3. apply list_elem_of_fmap. by exists (u, pre). }
      split.
      + apply level_succ. exists u. by rewrite <- elem_of_neighbors.
      + intros j Hj Hvj. apply Hs, I2. exists j. split; [lia|done].
    - intros [Hv Hmin]. apply level_succ in Hv as (u & Hu & Hadj). split.
      + intros (j & Hj & Hvj)%I2. apply (Hmin j); [lia|done].
      + assert (fresh g source k u) as Hf.
        { split; [done|]. intros j Hj Huj. apply (Hmin (S j)); [lia|].
          apply level_succ. eauto. }
        apply I3, list_elem_of_fmap in Hf as ([u' pre] & -> & Hin).
        exists u', pre. split; [done|]. by apply elem_of_neighbors. }
  split; [|split; [|split; [|split]]].
  - intros v pre' Hin. destruct (E2 v pre' Hin) as (u & pre & -> & Hf & Hv).
    destruct (I1 u pre Hf) as (Hlen & Hlast & Hch).
    split; [simpl; by rewrite Hlen|]. split; [done|].
    split; [|done]. apply adjacent_sym. by apply elem_of_neighbors.
  - intros v. rewrite elem_of_app, I2, Hnext. split.
    + intros [(j & Hj & Hv)|[Hv _]].
      * exists j. split; [lia|done].
      * exists (S k). done.
    + intros (j & Hj & Hv).
      destruct (decide (∃ i, i < S k ∧ v ∈ level g source i)) as [(i & Hi & Hvi)|Hno].
      * left. exists i. split; [lia|done].
      * right. assert (j = S k) as ->.
        { destruct (decide (j = S k)); [done|]. destruct Hno. exists j. split; [lia|done]. }
        split; [done|]. intros i Hi Hvi. apply Hno. eauto.
  - exact Hnext.
  - apply NoDup_app. split; [done|]. split; [|done].
    intros v Hs Hv. apply E1 in Hv as [Hns _]. done.
  - intros v [Hv|Hv]%elem_of_app; [by apply I5|].
    apply Hnext in Hv as [Hv _].
    apply level_succ in Hv as (u & _ & Hadj).
    by destruct (adjacent_nodes g u v Hcl Hadj).
Qed.

Lemma bfs_inv_found g source target k frontier seen u pre :
  bfs_inv g source k frontier seen →
  List.find (fun entry => bool_decide (entry.1 = target)) frontier = Some (u, pre) →
  fresh g source k target ∧ length (reverse (u :: pre)) = S k ∧
  connects g (reverse (u :: pre)) source target.
Proof.
  intros (I1 & _ & I3 & _) Hfind.
  apply find_some in Hfind as [Hin Ht]. apply list_elem_of_In in Hin.
  apply bool_decide_eq_true in Ht. simpl in Ht. subst u.
  destruct (I1 target pre Hin) as (Hlen & Hlast & Hch).
  split; [|split].
  - apply I3, list_elem_of_fmap. by exists (target, pre).
  - rewrite length_reverse. simpl. by rewrite Hlen.
  - split; [|split].
    + by rewrite head_reverse.
    + by rewrite last_reverse.
    + by apply chain_reverse.
Qed.

Lemma bfs_inv_not_found g source target k frontier seen :
  bfs_inv g source k frontier seen →
  List.find (fun entry => bool_decide (entry.1 = target)) frontier = None →
  ¬ fresh g source k target.
Proof.
  intros (_ & _ & I3 & _) Hfind Hf.
  apply I3, list_elem_of_fmap in Hf as ([u pre] & Hu & Hin). simpl in Hu.
  apply list_elem_of_In in Hin.
  pose proof (find_none _ _ Hfind _ Hin) as Hb. simpl in Hb.
  apply bool_decide_eq_false in Hb. done.
Qed.

(** A search that starts at level [k] below the distance [d] of the target
    finds a path of [d] edges, provided the fuel covers the nodes not yet
    seen. *)
Lemma bfs_complete g source target d fuel :
  closed_graph g → fresh g source d target →
  ∀ k frontier seen,
    bfs_inv g source k frontier seen → k ≤ d →
    length (Nx.nodes g).*1 < fuel + length seen →
    ∃ p, Nx.bfs (Nx.to_undirected g) target fuel frontier seen = Some p ∧
         length p = S d ∧ connects g p source target.
Proof.
  intros Hcl Hd. induction fuel as [|fuel IH]; intros k frontier seen Hinv Hk Hfuel.
  - destruct Hinv as (_ & _ & _ & Hnd & Hsub).
    assert (seen ⊆+ (Nx.nodes g).*1) as Hms by (by apply NoDup_submseteq).
    apply submseteq_length in Hms. simpl in Hfuel. lia.
  - simpl.
    destruct (List.find _ frontier) as [[u pre]|] eqn:Hfind.
    + destruct (bfs_inv_found _ _ _ _ _ _ _ _ Hinv Hfind) as ([Hlk Hmin] & Hlen & Hcon).
      assert (k = d) as ->.
      { destruct Hd as [_ Hdmin]. destruct (decide (k = d)); [done|].
        destruct (Hdmin k); [lia|done]. }
      eauto.
    + pose proof (bfs_inv_not_found _ _ _ _ _ _ Hinv Hfind) as Hnf.
      assert (k < d) as Hlt.
      { destruct (decide (k = d)) as [->|]; [done|lia]. }
      pose proof (bfs_inv_step g source k frontier seen Hcl Hinv) as Hstep.
      cbv zeta in Hstep.
      apply (IH (S k)); [done|lia|].
      destruct (fresh_prefix g source d target (S k) Hd Hlt) as (u & Hu).
      destruct Hstep as (_ & _ & I3 & _).
      apply I3 in Hu.
      rewrite length_app.
      destruct (Nx.expand (Nx.to_undirected g) seen frontier).*1 as [|x l];
        [by apply elem_of_nil in Hu|]. simpl in *. lia.
Qed.

(** Whatever the search returns is a path to a node first reached at the
    length of that path. *)
Lemma bfs_sound g source target fuel :
  closed_graph g →
  ∀ k frontier seen p,
    bfs_inv g source k frontier seen →
    Nx.bfs (Nx.to_undirected g) target fuel frontier seen = Some p →
    ∃ d, fresh g source d target ∧ length p = S d ∧ connects g p source target.
Proof.
  intros Hcl. induction fuel as [|fuel IH]; intros k frontier seen p Hinv; simpl.
  - destruct (List.find _ frontier) as [[u pre]|] eqn:Hfind; [|done].
    intros [= <-]. exists k. by eapply bfs_inv_found.
  - destruct (List.find _ frontier) as [[u pre]|] eqn:Hfind.
    + intros [= <-]. exists k. by eapply bfs_inv_found.
    + apply IH with (k := S k). by apply bfs_inv_step.
Qed.

(** ** What [shortest_path] returns *)

Lemma has_unode_true g n :
  Nx.has_unode (Nx.to_undirected g) n = true ↔ n ∈ (Nx.nodes g).*1.
Proof. unfold Nx.has_unode. simpl. apply bool_decide_eq_true. Qed.

Lemma shortest_path_spec g a b :
  closed_graph g →
  match Nx.shortest_path (Nx.to_undirected g) a b with
  | Returns p => a ∈ (Nx.nodes g).*1 ∧ b ∈ (Nx.nodes g).*1 ∧ shortest g p a b
  | Raises (NetworkXNoPath _ _) =>
      a ∈ (Nx.nodes g).*1 ∧ b ∈ (Nx.nodes g).*1 ∧ ¬ connected g a b
  | Raises (NodeNotFound _ _) => a ∉ (Nx.nodes g).*1 ∨ b ∉ (Nx.nodes g).*1
  | Raises (JSONDecodeError _) => False
  end.
Proof.
  intros Hcl. unfold Nx.shortest_path.
  destruct (Nx.has_unode (Nx.to_undirected g) a) eqn:Ha; simpl.
  2: { left. intros Hin%has_unode_true. congruence. }
  destruct (Nx.has_unode (Nx.to_undirected g) b) eqn:Hb; simpl.
  2: { right. intros Hin%has_unode_true. congruence. }
  apply has_unode_true in Ha, Hb.
  pose proof (bfs_inv_init g a Ha) as Hinit.
  destruct (Nx.bfs _ b _ _ _) as [p|] eqn:Hbfs.
  - split; [done|]. split; [done|].
    destruct (bfs_sound g a b _ Hcl _ _ _ _ Hinit Hbfs) as (d & [_ Hmin] & Hlen & Hcon).
    split; [done|]. intros q Hq.
    pose proof (connects_level g q a b Hq) as Hlev.
    destruct (decide (length q - 1 < d)) as [Hlt|Hge]; [by destruct (Hmin _ Hlt)|].
    destruct Hq as (Hh & _). destruct q as [|x q]; [done|]. simpl in *. lia.
  - split; [done|]. split; [done|]. intros (q & Hq).
    apply connects_level, least_fresh in Hq as (d & _ & Hd).
    destruct (bfs_complete g a b d (length (Nx.unodes (Nx.to_undirected g))) Hcl Hd
                0 [(a, [])] [a] Hinit) as (p & Hp & _);
      [lia|rewrite length_fmap; simpl; lia|].
    change (Nx.unodes (Nx.to_undirected g)) with (Nx.nodes g) in Hp.
    congruence.
Qed.

(** ** The graph of a constructed object is closed *)

Lemma add_node_names g n cols x :
  x ∈ (Nx.nodes g).*1 → x ∈ (Nx.nodes (Nx.add_node g n cols)).*1.
Proof.
  unfold Nx.add_node. destruct (Nx.has_node g n); simpl.
  - intros ([y a] & -> & Hin)%list_elem_of_fmap. simpl.
    apply list_elem_of_fmap.
    destruct (decide (y = n)) as [->|Hne].
    + exists (n, Some cols). split; [done|].
      apply list_elem_of_fmap. exists (n, a). split; [|done].
      simpl. by rewrite bool_decide_true.
    + exists (y, a). split; [done|].
      apply list_elem_of_fmap. exists (y, a). split; [|done].
      simpl. by rewrite bool_decide_false.
  - intros Hx. rewrite fmap_app. apply elem_of_app. by left.
Qed.

Lemma touch_node_names g n x :
  x ∈ (Nx.nodes g).*1 → x ∈ (Nx.nodes (Nx.touch_node g n)).*1.
Proof.
  unfold Nx.touch_node. destruct (Nx.has_node g n); [done|]. simpl.
  intros Hx. rewrite fmap_app. apply elem_of_app. by left.
Qed.

Lemma touch_node_self g n : n ∈ (Nx.nodes (Nx.touch_node g n)).*1.
Proof.
  unfold Nx.touch_node. destruct (Nx.has_node g n) eqn:E.
  - by apply bool_decide_eq_true in E.
  - simpl. rewrite fmap_app. apply elem_of_app. right. by left.
Qed.

Lemma add_node_closed g n cols : closed_graph g → closed_graph (Nx.add_node g n cols).
Proof.
  intros Hcl e. rewrite add_node_edges. intros He.
  destruct (Hcl e He). split; by apply add_node_names.
Qed.

Lemma add_edge_closed g u v attrs : closed_graph g → closed_graph (Nx.add_edge g u v attrs).
Proof.
  intros Hcl e. rewrite add_edge_edges. unfold Nx.add_edge. cbn [Nx.nodes].
  intros [He|He]%elem_of_app.
  - destruct (Hcl e He). split; by apply touch_node_names, touch_node_names.
  - apply list_elem_of_singleton in He as ->. simpl. split.
    + apply touch_node_names, touch_node_self.
    + apply touch_node_self.
Qed.

Lemma init_closed tabs rels : closed_graph (graph (__init__ tabs rels)).
Proof.
  rewrite init_graph.
  assert (closed_graph (foldl add_schema Nx.empty tabs)) as H0.
  { assert (closed_graph Nx.empty) as He by (by intros e ?%elem_of_nil).
    revert He. generalize Nx.empty.
    induction tabs as [|item tabs IH]; intros g Hg; simpl; [done|].
    apply IH. by apply add_node_closed. }
  revert H0. generalize (foldl add_schema Nx.empty tabs).
  induction rels as [|rel rels IH]; intros g Hg; simpl; [done|].
  apply IH. by apply add_edge_closed.
Qed.

(** ** What [get_all_tables_needed] returns *)

Lemma for_each_outcome {A S} (f : S -> A -> outcome S) (body : S -> A -> M S) xs self :
  (∀ acc x, body acc x self = (f acc x, self)) →
  ∀ acc, for_each xs acc body self = (fold_outcome f acc xs, self).
Proof.
  intros Hbody. induction xs as [|x xs IH]; intros acc; simpl.
  - reflexivity.
  - unfold mbind, M_bind. rewrite Hbody. destruct (f acc x); [apply IH|done].
Qed.

Lemma fold_outcome_app {A S} (f : S -> A -> outcome S) acc (l1 l2 : list A) :
  fold_outcome f acc (l1 ++ l2)
  = match fold_outcome f acc l1 with
    | Returns acc' => fold_outcome f acc' l2
    | Raises e => Raises e
    end.
Proof.
  revert acc. induction l1 as [|x l1 IH]; intros acc; simpl; [done|].
  destruct (f acc x); [apply IH|done].
Qed.

Lemma fold_outcome_nested {A B C S} (f : S -> C -> outcome S)
    (js : A -> list B) (k : A -> B -> C) (xs : list A) acc :
  fold_outcome (fun acc i => fold_outcome (fun acc j => f acc (k i j)) acc (js i)) acc xs
  = fold_outcome f acc (xs ≫= fun i => js i ≫= fun j => [k i j]).
Proof.
  revert acc. induction xs as [|i xs IH]; intros acc; [done|].
  rewrite bind_cons, fold_outcome_app. cbn [fold_outcome].
  assert (∀ l a, fold_outcome (fun acc j => f acc (k i j)) a l
                 = fold_outcome f a (l ≫= fun j => [k i j])) as Hin.
  { induction l as [|j l IHl]; intros a; [done|].
    rewrite bind_cons. simpl. destruct (f a (k i j)); [apply IHl|done]. }
  rewrite Hin. destruct (fold_outcome f acc _); [apply IH|done].
Qed.

Lemma bind_singleton_id {A} (l : list A) : l ≫= (fun x => [x]) = l.
Proof. induction l as [|x l IH]; [done|]. rewrite bind_cons, IH. done. Qed.

Lemma connect_run (tables : list string) (i j : nat) (all_tables : gset string) self :
  try_except
    (g ← self_graph;
     path ← lift (Nx.shortest_path (Nx.to_undirected g) (tables !!! i) (tables !!! j));
     mret (all_tables ∪ list_to_set path))
    (fun e => match e with
              | NetworkXNoPath _ _ => Some (mret all_tables)
              | _ => None
              end) self
  = (connect (graph self) all_tables (tables !!! i, tables !!! j), self).
Proof.
  unfold try_except, mbind, M_bind, self_graph, lift, connect. simpl.
  destruct (Nx.shortest_path _ _ _) as [p|[]]; reflexivity.
Qed.

Lemma get_all_tables_needed_run tables self :
  get_all_tables_needed tables self
  = (match fold_outcome (connect (graph self)) (list_to_set tables) (pairs tables) with
     | Returns all_tables => Returns (elements all_tables)
     | Raises e => Raises e
     end, self).
Proof.
  unfold get_all_tables_needed. unfold mbind at 1, M_bind at 1.
  rewrite (for_each_outcome
    (fun acc i => fold_outcome
       (fun acc j => connect (graph self) acc (tables !!! i, tables !!! j))
       acc (Py.range (i + 1) (length tables)))).
  - rewrite (fold_outcome_nested (connect (graph self))
               (fun i => Py.range (i + 1) (length tables))
               (fun i j => (tables !!! i, tables !!! j))).
    rewrite (bind_range_pairs (fun st => [st]) tables), bind_singleton_id.
    by destruct (fold_outcome _ _ _).
  - intros acc i. apply for_each_outcome. intros acc' j. apply connect_run.
Qed.

Lemma fold_connect g (ps : list (string * string)) :
  closed_graph g →
  (∀ st, st ∈ ps → st.1 ∈ (Nx.nodes g).*1 ∧ st.2 ∈ (Nx.nodes g).*1) →
  ∀ acc : gset string,
  ∃ all_tables : gset string,
    fold_outcome (connect g) acc ps = Returns all_tables ∧
    ∀ x, x ∈ all_tables ↔
         x ∈ acc ∨ ∃ st p, st ∈ ps
                           ∧ Nx.shortest_path (Nx.to_undirected g) st.1 st.2 = Returns p
                           ∧ x ∈ p.
Proof.
  intros Hcl. induction ps as [|st ps IH]; intros Hin acc; simpl.
  - exists acc. split; [done|]. intros x. split; [by left|].
    intros [?|(st & p & ?%elem_of_nil & _)]; done.
  - destruct (Hin st) as [H1 H2]; [by left|].
    assert (∀ st', st' ∈ ps → st'.1 ∈ (Nx.nodes g).*1 ∧ st'.2 ∈ (Nx.nodes g).*1) as Hin'
      by (intros; apply Hin; by right).
    pose proof (shortest_path_spec g st.1 st.2 Hcl) as Hsp.
    unfold connect at 1.
    destruct (Nx.shortest_path (Nx.to_undirected g) st.1 st.2) as [p|[| |]] eqn:E.
    + destruct (IH Hin' (acc ∪ list_to_set p)) as (s & Hs & Hx).
      exists s. split; [done|]. intros x. rewrite Hx, elem_of_union, elem_of_list_to_set.
      split.
      * intros [[?|?]|(st' & p' & ? & ? & ?)]; [by left| |].
        -- right. exists st, p. split; [by left|done].
        -- right. exists st', p'. split; [by right|done].
      * intros [?|(st' & p' & [->|?]%elem_of_cons & Hp' & ?)]; [by left; left| |].
        -- rewrite E in Hp'. injection Hp' as <-. left; by right.
        -- right. eauto.
    + destruct Hsp as [?|?]; done.
    + destruct (IH Hin' acc) as (s & Hs & Hx).
      exists s. split; [done|]. intros x. rewrite Hx. split.
      * intros [?|(st' & p' & ? & ? & ?)]; [by left|].
        right. exists st', p'. split; [by right|done].
      * intros [?|(st' & p' & [->|?]%elem_of_cons & Hp' & ?)]; [by left| |].
        -- rewrite E in Hp'. done.
        -- right. eauto.
    + done.
Qed.

(** ** Connecting tables *)

(** C4. When every requested table is a node of the graph of a constructed
    object, the call returns, and there is a choice of one shortest path for
    each pair of requested tables that is connected, and of none for each pair
    that is not, such that the result holds exactly the requested tables and
    the nodes of the chosen paths.  So the result contains the request; for two
    tables it contains every table that all their connecting paths pass
    through; and for two tables that are not connected it holds the two
    tables alone. *)
Theorem C4_tables_and_shortest_paths (tabs : list (string * list Column.t))
    (rels : list Rel.t) (tables : list string) :
  let self := __init__ tabs rels in
  let g := graph self in
  (∀ t, t ∈ tables → t ∈ (Nx.nodes g).*1) →
  ∃ (result : list string) (choice : string * string -> option (list string)),
    (get_all_tables_needed tables self).1 = Returns result ∧
    (∀ a b, (a, b) ∈ pairs tables →
       match choice (a, b) with
       | Some p => shortest g p a b
       | None => ¬ connected g a b
       end) ∧
    (∀ x, x ∈ result ↔
          x ∈ tables ∨ ∃ st p, st ∈ pairs tables ∧ choice st = Some p ∧ x ∈ p) ∧
    (∀ t, t ∈ tables → t ∈ result) ∧
    (∀ a b m, tables = [a; b] → connected g a b →
              (∀ p, connects g p a b → m ∈ p) → m ∈ result) ∧
    (∀ a b, tables = [a; b] → ¬ connected g a b →
            ∀ x, x ∈ result ↔ x = a ∨ x = b).
Proof.
  intros self g Hpresent.
  assert (closed_graph g) as Hcl by apply init_closed.
  assert (∀ st, st ∈ pairs tables → st.1 ∈ (Nx.nodes g).*1 ∧ st.2 ∈ (Nx.nodes g).*1)
    as Hpairs.
  { intros [a b] [Ha Hb]%elem_of_pairs. split; by apply Hpresent. }
  destruct (fold_connect g (pairs tables) Hcl Hpairs (list_to_set tables))
    as (s & Hs & Hx).
  set (choice := fun st : string * string =>
         match Nx.shortest_path (Nx.to_undirected g) st.1 st.2 with
         | Returns p => Some p
         | Raises _ => None
         end).
  assert (∀ a b, (a, b) ∈ pairs tables →
            match choice (a, b) with
            | Some p => shortest g p a b
            | None => ¬ connected g a b
            end) as Hchoice.
  { intros a b Hab. destruct (Hpairs _ Hab) as [Ha Hb]. simpl in Ha, Hb.
    pose proof (shortest_path_spec g a b Hcl) as Hsp. unfold choice. simpl.
    destruct (Nx.shortest_path (Nx.to_undirected g) a b) as [p|[| |]].
    - tauto.
    - destruct Hsp; done.
    - tauto.
    - done. }
  assert (∀ x, x ∈ elements s ↔
               x ∈ tables ∨ ∃ st p, st ∈ pairs tables ∧ choice st = Some p ∧ x ∈ p)
    as Hresult.
  { intros x. rewrite elem_of_elements, Hx, elem_of_list_to_set.
    split; (intros [?|(st & p & Hst & Hp & Hin)]; [by left|right]);
      exists st, p; (split; [done|]); (split; [|done]).
    - unfold choice. by rewrite Hp.
    - unfold choice in Hp.
      destruct (Nx.shortest_path (Nx.to_undirected g) st.1 st.2); congruence. }
  exists (elements s), choice.
  split; [|split; [|split; [|split; [|split]]]].
  - clear -Hs. subst g self. rewrite get_all_tables_needed_run. cbn [fst].
    by rewrite Hs.
  - exact Hchoice.
  - exact Hresult.
  - intros t Ht. apply Hresult. by left.
  - intros a b m -> Hcon Hm. apply Hresult. right.
    specialize (Hchoice a b ltac:(left)).
    destruct (choice (a, b)) as [p|] eqn:Ep; [|done].
    exists (a, b), p. split; [by left|]. split; [done|].
    apply Hm. by destruct Hchoice.
  - intros a b -> Hno x. rewrite Hresult.
    specialize (Hchoice a b ltac:(left)).
    split.
    + intros [Hx'|(st & p & Hst & Hp & _)].
      * apply elem_of_cons in Hx' as [->|Hx']; [by left|].
        apply list_elem_of_singleton in Hx' as ->. by right.
      * apply list_elem_of_singleton in Hst as ->. rewrite Hp in Hchoice.
        destruct Hno. exists p. by destruct Hchoice.
    + intros [-> | ->]; left; [by left|right; by left].
Qed.

Lemma C4_witness :
  (∀ t, t ∈ ["Trade"; "Concentration"] → t ∈ (Nx.nodes (graph sample_kg)).*1) ∧
  ∃ result,
    (get_all_tables_needed ["Trade"; "Concentration"] sample_kg).1 = Returns result ∧
    "Trade" ∈ result ∧ "Concentration" ∈ result.
Proof.
  assert (∀ t, t ∈ ["Trade"; "Concentration"] → t ∈ (Nx.nodes (graph sample_kg)).*1)
    as Hpresent.
  { intros t [->|Ht]%elem_of_cons; [by_computation|].
    apply list_elem_of_singleton in Ht as ->. by_computation. }
  split; [exact Hpresent|].
  destruct (C4_tables_and_shortest_paths sample_schemas sample_relationships
              ["Trade"; "Concentration"] Hpresent)
    as (result & choice & Hrun & _ & _ & Hsup & _).
  exists result. split; [exact Hrun|]. split; apply Hsup.
  - by left.
  - right. by left.
Defined.

(** A request of two tables of which one is not a node raises, whatever the
    graph. *)
Lemma unknown_endpoint_raises (self : TableKnowledgeGraph) (a b : string) :
  Nx.has_node (graph self) a = false ∨ Nx.has_node (graph self) b = false →
  (get_all_tables_needed [a; b] self).1 = Raises (NodeNotFound a b).
Proof.
  intros Hmissing. rewrite get_all_tables_needed_run. cbn [fst pairs map app fold_outcome].
  unfold connect, Nx.shortest_path, Nx.has_unode. cbn [fst snd Nx.to_undirected Nx.unodes].
  unfold Nx.has_node in Hmissing.
  destruct Hmissing as [-> | ->]; [done|].
  by rewrite orb_true_r.
Qed.

(** C3, at an input on which the code fails.  The request names a table that
    is not a node of the graph: [shortest_path] raises [NodeNotFound], which the
    [except] clause of line 162 does not catch. *)
Theorem C3_unknown_table_raises :
  Nx.has_node (graph sample_kg) "Customer" = false ∧
  (get_all_tables_needed ["Counterparty"; "Customer"] sample_kg).1
  = Raises (NodeNotFound "Counterparty" "Customer") ∧
  (get_all_tables_needed ["Customer"] sample_kg).1 = Returns ["Customer"].
Proof. repeat split; vm_compute; reflexivity. Qed.

(** ** The query methods leave the object as it is *)

(** C9. Whatever the arguments, and whether the call returns or raises,
    [get_join_relationships] and [get_all_tables_needed] hand back the object
    as they found it: the same graph, with its nodes, edges and attributes, the
    same schemas and the same relationship definitions. *)
Theorem C9_queries_leave_the_object_unchanged (self : TableKnowledgeGraph)
    (tables : list string) (context : option string) :
  (get_join_relationships tables context self).2 = self ∧
  (get_all_tables_needed tables self).2 = self.
Proof.
  split.
  - by rewrite get_join_relationships_run.
  - by rewrite get_all_tables_needed_run.
Qed.

(** ** Strings: slices and searches *)











Lemma find_range s c : (-1 ≤ Py.find s c < Z.of_nat (String.length s))%Z.
Proof.
  induction s as [|d s IH]; simpl; [lia|].
  case_bool_decide; [lia|]. destruct (Z.eqb_spec (Py.find s c) (-1)); lia.
Qed.

















(** ** Reading the answer of stage 1 *)

(** Whatever the decoder, an answer without an opening brace is decoded as a
    whole. *)
Lemma identify_tables_without_brace (json_loads : string -> option json)
    (response : string) :
  Py.find (clean_response response) "{" = (-1)%Z →
  identify_tables json_loads response = loads json_loads (clean_response response).
Proof. unfold identify_tables. by intros ->. Qed.



(** * Further properties *)

(** ** Dictionaries in insertion order *)

Lemma dict_get_set_eq {V} (d : list (string * V)) k v dflt :
  dict_get (dict_set d k v) k dflt = v.
Proof.
  induction d as [|[k' v'] d IH]; simpl.
  - by rewrite bool_decide_true.
  - case_bool_decide as Hk; simpl.
    + by rewrite bool_decide_true.
    + by rewrite bool_decide_false.
Qed.

Lemma dict_get_set_ne {V} (d : list (string * V)) k k' v dflt :
  k ≠ k' → dict_get (dict_set d k v) k' dflt = dict_get d k' dflt.
Proof.
  intros Hne. induction d as [|[k0 v0] d IH]; simpl.
  - by rewrite bool_decide_false.
  - case_bool_decide as Hk; simpl.
    + subst k0. by rewrite !bool_decide_false.
    + by rewrite IH.
Qed.

Lemma dict_set_keys {V} (d : list (string * V)) k v :
  (dict_set d k v).*1 = if bool_decide (k ∈ d.*1) then d.*1 else d.*1 ++ [k].
Proof.
  induction d as [|[k' v'] d IH]; [done|].
  cbn [dict_set]. rewrite fmap_cons. cbn [fst].
  destruct (decide (k' = k)) as [->|Hne].
  - rewrite bool_decide_true by done. rewrite (bool_decide_true (k ∈ k :: d.*1)) by left.
    done.
  - rewrite bool_decide_false by done. rewrite fmap_cons, IH. cbn [fst].
    destruct (decide (k ∈ d.*1)) as [Hin|Hin].
    + rewrite (bool_decide_true (k ∈ d.*1)) by done.
      rewrite (bool_decide_true (k ∈ k' :: d.*1)) by (by right). done.
    + rewrite (bool_decide_false (k ∈ d.*1)) by done.
      rewrite (bool_decide_false (k ∈ k' :: d.*1)); [done|].
      intros [?|?]%elem_of_cons; [by subst|done].
Qed.

Lemma dict_get_absent {V} (d : list (string * V)) k dflt :
  k ∉ d.*1 → dict_get d k dflt = dflt.
Proof.
  induction d as [|[k' v'] d IH]; simpl; [done|].
  intros Hk. rewrite bool_decide_false.
  - apply IH. intros ?. apply Hk. by right.
  - intros ->. apply Hk. by left.
Qed.

Lemma dict_get_present {V} (d : list (string * V)) k dflt :
  k ∈ d.*1 → (k, dict_get d k dflt) ∈ d.
Proof.
  induction d as [|[k' v'] d IH]; simpl; [by intros ?%elem_of_nil|].
  intros Hk. case_bool_decide as Hkk.
  - subst. by left.
  - right. apply IH. apply elem_of_cons in Hk as [?|?]; [by subst|done].
Qed.

(** ** The columns of the needed tables *)

Lemma get_columns_for_tables_run tables self :
  get_columns_for_tables tables self
  = (Returns (foldl (fun result table =>
                dict_set result table (dict_get (schemas self) table [])) [] tables),
     self).
Proof. unfold get_columns_for_tables. by apply for_each_pure. Qed.

Lemma columns_fold_spec (sch : list (string * list Column.t)) (tables : list string) :
  ∀ acc : list (string * list Column.t),
    NoDup acc.*1 →
    (∀ t, t ∈ acc.*1 → dict_get acc t [] = dict_get sch t []) →
    let result := foldl (fun result table =>
                    dict_set result table (dict_get sch table [])) acc tables in
    NoDup result.*1 ∧
    (∀ t, t ∈ result.*1 ↔ t ∈ acc.*1 ∨ t ∈ tables) ∧
    (∀ t, t ∈ result.*1 → dict_get result t [] = dict_get sch t []) ∧
    (∃ rest, result.*1 = acc.*1 ++ rest ∧
             (NoDup (acc.*1 ++ tables) → rest = tables)).
Proof.
  induction tables as [|x tables IH]; intros acc Hnd Hacc; simpl.
  - repeat split; auto.
    + intros [?|?%elem_of_nil]; done.
    + exists []. by rewrite app_nil_r.
  - set (acc' := dict_set acc x (dict_get sch x [])).
    assert (NoDup acc'.*1) as Hnd'.
    { unfold acc'. rewrite dict_set_keys. case_bool_decide as Hx; [done|].
      apply NoDup_app. split; [done|]. split; [|apply NoDup_singleton].
      intros y Hy ->%list_elem_of_singleton. done. }
    assert (∀ t, t ∈ acc'.*1 ↔ t ∈ acc.*1 ∨ t = x) as Hkeys.
    { intros t. unfold acc'. rewrite dict_set_keys. case_bool_decide as Hx.
      - split; [by left|]. intros [? | ->]; done.
      - rewrite elem_of_app, list_elem_of_singleton. done. }
    assert (∀ t, t ∈ acc'.*1 → dict_get acc' t [] = dict_get sch t []) as Hacc'.
    { intros t Ht. unfold acc'. destruct (decide (x = t)) as [->|Hne].
      - apply dict_get_set_eq.
      - rewrite dict_get_set_ne by done. apply Hacc.
        apply Hkeys in Ht as [?|?]; [done|by subst]. }
    destruct (IH acc' Hnd' Hacc') as (H1 & H2 & H3 & rest & H4 & H5).
    split; [done|]. split; [|split; [done|]].
    + intros t. rewrite H2, Hkeys, elem_of_cons. tauto.
    + pose proof (dict_set_keys acc x (dict_get sch x [])) as Hset. fold acc' in Hset.
      destruct (decide (x ∈ acc.*1)) as [Hx|Hx].
      * rewrite bool_decide_true in Hset by done. rewrite Hset in H4, H5.
        exists rest. split; [done|]. intros Hdup.
        apply NoDup_app in Hdup as (_ & Hdisj & _). destruct (Hdisj x Hx). by left.
      * rewrite bool_decide_false in Hset by done. rewrite Hset in H4, H5.
        exists (x :: rest). split; [by rewrite H4, <- app_assoc|].
        intros Hdup. f_equal. apply H5. by rewrite <- app_assoc.
Qed.

Lemma columns_result_spec (self : TableKnowledgeGraph) (tables : list string) :
  ∃ result,
    get_columns_for_tables tables self = (Returns result, self) ∧
    NoDup result.*1 ∧
    (∀ t, t ∈ result.*1 ↔ t ∈ tables) ∧
    (∀ t, t ∈ tables → (t, dict_get (schemas self) t []) ∈ result) ∧
    (∀ t, t ∈ tables → t ∉ (schemas self).*1 → (t, []) ∈ result) ∧
    (NoDup tables → result.*1 = tables).
Proof.
  eexists. split; [apply get_columns_for_tables_run|].
  destruct (columns_fold_spec (schemas self) tables [])
    as (H1 & H2 & H3 & rest & H4 & H5); [constructor|by intros t ?%elem_of_nil|].
  cbv zeta in *. simpl in H2, H4, H5.
  assert (∀ t, t ∈ tables →
            (t, dict_get (schemas self) t [])
            ∈ foldl (fun result table =>
                 dict_set result table (dict_get (schemas self) table [])) [] tables)
    as Hentry.
  { intros t Ht. rewrite <- H3 by (apply H2; by right).
    apply dict_get_present, H2. by right. }
  split; [done|]. split; [|split; [done|split]].
  - intros t. rewrite H2. split; [intros [?%elem_of_nil|?]; done|by right].
  - intros t Ht Hunknown. pose proof (Hentry t Ht) as He.
    by rewrite (dict_get_absent (schemas self) t []) in He.
  - intros Hnd. rewrite H4. by apply H5.
Qed.

(** X1. [get_columns_for_tables] never fails and leaves the object alone.
    Its result has one entry for each requested table and for no other name,
    each entry holds what the catalogue has for the table, a name that the
    catalogue does not know gets the empty list, and for a duplicate-free
    request the keys are the request, in its order. *)
Theorem X1_columns_for_every_requested_table (self : TableKnowledgeGraph)
    (tables : list string) :
  ∃ result,
    get_columns_for_tables tables self = (Returns result, self) ∧
    NoDup result.*1 ∧
    (∀ t, t ∈ result.*1 ↔ t ∈ tables) ∧
    (∀ t, t ∈ tables → (t, dict_get (schemas self) t []) ∈ result) ∧
    (∀ t, t ∈ tables → t ∉ (schemas self).*1 → (t, []) ∈ result) ∧
    (NoDup tables → result.*1 = tables).
Proof. apply columns_result_spec. Qed.

(** ** When [get_all_tables_needed] fails *)

Lemma shortest_path_raises g a b e :
  Nx.shortest_path (Nx.to_undirected g) a b = Raises e →
  (e = NodeNotFound a b ∧ (a ∉ (Nx.nodes g).*1 ∨ b ∉ (Nx.nodes g).*1)) ∨
  (e = NetworkXNoPath a b ∧ a ∈ (Nx.nodes g).*1 ∧ b ∈ (Nx.nodes g).*1).
Proof.
  unfold Nx.shortest_path.
  destruct (Nx.has_unode (Nx.to_undirected g) a) eqn:Ha; simpl.
  2: { intros [= <-]. left. split; [done|]. left.
       intros Hin%has_unode_true. congruence. }
  destruct (Nx.has_unode (Nx.to_undirected g) b) eqn:Hb; simpl.
  2: { intros [= <-]. left. split; [done|]. right.
       intros Hin%has_unode_true. congruence. }
  apply has_unode_true in Ha, Hb.
  destruct (Nx.bfs _ _ _ _ _); [done|]. intros [= <-]. by right.
Qed.

Lemma shortest_path_returns_nodes g a b p :
  Nx.shortest_path (Nx.to_undirected g) a b = Returns p →
  a ∈ (Nx.nodes g).*1 ∧ b ∈ (Nx.nodes g).*1.
Proof.
  unfold Nx.shortest_path.
  destruct (Nx.has_unode (Nx.to_undirected g) a) eqn:Ha; simpl; [|done].
  destruct (Nx.has_unode (Nx.to_undirected g) b) eqn:Hb; simpl; [|done].
  apply has_unode_true in Ha, Hb. done.
Qed.

Lemma fold_connect_outcome g (ps : list (string * string)) (acc : gset string) :
  match fold_outcome (connect g) acc ps with
  | Returns all_tables =>
      (∀ st, st ∈ ps → st.1 ∈ (Nx.nodes g).*1 ∧ st.2 ∈ (Nx.nodes g).*1) ∧
      (∀ x, x ∈ all_tables ↔
            x ∈ acc ∨ ∃ st p, st ∈ ps
                              ∧ Nx.shortest_path (Nx.to_undirected g) st.1 st.2 = Returns p
                              ∧ x ∈ p)
  | Raises e =>
      ∃ st, st ∈ ps ∧ e = NodeNotFound st.1 st.2 ∧
            (st.1 ∉ (Nx.nodes g).*1 ∨ st.2 ∉ (Nx.nodes g).*1)
  end.
Proof.
  revert acc. induction ps as [|st ps IH]; intros acc; simpl.
  - split; [by intros st ?%elem_of_nil|]. intros x. split; [by left|].
    intros [?|(st & p & ?%elem_of_nil & _)]; done.
  - unfold connect at 1.
    destruct (Nx.shortest_path (Nx.to_undirected g) st.1 st.2) as [p|e] eqn:E.
    + specialize (IH (acc ∪ list_to_set p)).
      destruct (fold_outcome _ _ ps) as [s|e'].
      * destruct IH as [Hall Hx]. split.
        -- intros st' [->|?]%elem_of_cons; [|by apply Hall].
           by eapply shortest_path_returns_nodes.
        -- intros x. rewrite Hx, elem_of_union, elem_of_list_to_set. split.
           ++ intros [[?|?]|(st' & p' & ? & ? & ?)]; [by left| |].
              ** right. exists st, p. split; [by left|done].
              ** right. exists st', p'. split; [by right|done].
           ++ intros [?|(st' & p' & [->|?]%elem_of_cons & Hp' & ?)]; [by left; left| |].
              ** rewrite E in Hp'. injection Hp' as <-. left; by right.
              ** right. eauto.
      * destruct IH as (st' & ? & ? & ?). exists st'. split; [by right|done].
    + destruct (shortest_path_raises _ _ _ _ E) as [[-> Hmiss]|(-> & Ha & Hb)].
      * exists st. split; [by left|done].
      * specialize (IH acc). destruct (fold_outcome _ _ ps) as [s|e'].
        -- destruct IH as [Hall Hx]. split.
           ++ intros st' [->|?]%elem_of_cons; [done|by apply Hall].
           ++ intros x. rewrite Hx. split.
              ** intros [?|(st' & p' & ? & ? & ?)]; [by left|].
                 right. exists st', p'. split; [by right|done].
              ** intros [?|(st' & p' & [->|?]%elem_of_cons & Hp' & ?)]; [by left| |].
                 --- rewrite E in Hp'. done.
                 --- right. eauto.
        -- destruct IH as (st' & ? & ? & ?). exists st'. split; [by right|done].
Qed.

Lemma in_some_pair {A} (l : list A) (t : A) :
  2 ≤ length l → t ∈ l → ∃ u, (t, u) ∈ pairs l ∨ (u, t) ∈ pairs l.
Proof.
  destruct l as [|x [|y r]]; cbn [length]; try lia. intros _ Ht.
  change (pairs (x :: y :: r)) with (map (pair x) (y :: r) ++ pairs (y :: r)).
  apply elem_of_cons in Ht as [->|Ht].
  - exists y. left. apply elem_of_app. left. by left.
  - exists x. right. apply elem_of_app. left.
    apply list_elem_of_fmap. by exists t.
Qed.

Lemma pairs_short {A} (l : list A) : length l ≤ 1 → pairs l = [].
Proof. destruct l as [|x [|y r]]; simpl; [done..|lia]. Qed.

Lemma tables_needed_outcome (self : TableKnowledgeGraph) (tables : list string) :
  ((∃ result, (get_all_tables_needed tables self).1 = Returns result)
   ↔ (length tables ≤ 1 ∨ ∀ t, t ∈ tables → t ∈ (Nx.nodes (graph self)).*1)) ∧
  (∀ e, (get_all_tables_needed tables self).1 = Raises e →
        ∃ a b, (a, b) ∈ pairs tables ∧ e = NodeNotFound a b ∧
               (a ∉ (Nx.nodes (graph self)).*1 ∨ b ∉ (Nx.nodes (graph self)).*1)) ∧
  (∀ result, (get_all_tables_needed tables self).1 = Returns result →
             NoDup result ∧ ∀ t, t ∈ tables → t ∈ result).
Proof.
  rewrite get_all_tables_needed_run. cbn [fst].
  pose proof (fold_connect_outcome (graph self) (pairs tables) (list_to_set tables)) as H.
  destruct (fold_outcome _ _ _) as [s|e].
  - destruct H as [Hall Hx]. split; [|split].
    + split; [|by eauto]. intros _.
      destruct (decide (length tables ≤ 1)) as [?|Hlen]; [by left|right].
      intros t Ht. destruct (in_some_pair tables t ltac:(lia) Ht) as (u & [Hp|Hp]);
        by destruct (Hall _ Hp).
    + done.
    + intros result [= <-]. split; [apply NoDup_elements|].
      intros t Ht. apply elem_of_elements, Hx. left. by apply elem_of_list_to_set.
  - destruct H as ([a b] & Hin & -> & Hmiss). split; [|split].
    + split; [by intros (? & ?)|]. intros [Hlen|Hall].
      * rewrite pairs_short in Hin by done. by apply elem_of_nil in Hin.
      * apply elem_of_pairs in Hin as [Ha Hb]. simpl in Hmiss.
        destruct Hmiss as [Hm|Hm]; destruct Hm; by apply Hall.
    + intros e [= <-]. exists a, b. done.
    + done.
Qed.

(** X2. [get_all_tables_needed] returns exactly when the request has at most
    one table or names nodes of the graph only.  When it fails, the error is
    the [NodeNotFound] of a pair of requested tables of which one is not a
    node; when it returns, the result has no duplicates and holds every
    requested table. *)
Theorem X2_tables_needed_fails_on_unknown_names_only (self : TableKnowledgeGraph)
    (tables : list string) :
  ((∃ result, (get_all_tables_needed tables self).1 = Returns result)
   ↔ (length tables ≤ 1 ∨ ∀ t, t ∈ tables → t ∈ (Nx.nodes (graph self)).*1)) ∧
  (∀ e, (get_all_tables_needed tables self).1 = Raises e →
        ∃ a b, (a, b) ∈ pairs tables ∧ e = NodeNotFound a b ∧
               (a ∉ (Nx.nodes (graph self)).*1 ∨ b ∉ (Nx.nodes (graph self)).*1)) ∧
  (∀ result, (get_all_tables_needed tables self).1 = Returns result →
             NoDup result ∧ ∀ t, t ∈ tables → t ∈ result).
Proof. apply tables_needed_outcome. Qed.

(** ** The join plan *)

Lemma get_join_info_run tables context self :
  get_join_info tables context self
  = (match (get_all_tables_needed tables self).1 with
     | Returns all_tables =>
         Returns (JoinInfo.mk tables all_tables
                    (pairs all_tables ≫= joins_of_pair (graph self) context)
                    (foldl (fun result table =>
                       dict_set result table (dict_get (schemas self) table []))
                       [] all_tables)
                    context)
     | Raises e => Raises e
     end, self).
Proof.
  unfold get_join_info. unfold mbind at 1, M_bind at 1.
  rewrite get_all_tables_needed_run. cbn [fst].
  destruct (fold_outcome _ _ _) as [s|e]; [|done].
  unfold mbind at 1, M_bind at 1. rewrite get_join_relationships_run.
  unfold mbind at 1, M_bind at 1. rewrite get_columns_for_tables_run. done.
Qed.

Lemma pairs_distinct {A} (l : list A) (a b : A) :
  NoDup l → (a, b) ∈ pairs l → a ≠ b.
Proof.
  induction l as [|x l IH]; simpl; [by intros _ ?%elem_of_nil|].
  intros [Hx Hnd]%NoDup_cons [Hin|Hin]%elem_of_app.
  - apply list_elem_of_fmap in Hin as (y & [= -> ->] & Hy). by intros ->.
  - by apply IH.
Qed.

(** X3. [get_join_info] leaves the object alone and fails exactly as
    [get_all_tables_needed] does.  The plan it returns repeats the request and
    the context, lists the needed tables without duplicates and with every
    requested table among them, joins needed tables only and never a table
    with itself, and carries the columns of the needed tables, in their
    order. *)
Theorem X3_join_plan_is_well_formed (self : TableKnowledgeGraph)
    (tables : list string) (context : option string) :
  (get_join_info tables context self).2 = self ∧
  (∀ e, (get_join_info tables context self).1 = Raises e
        ↔ (get_all_tables_needed tables self).1 = Raises e) ∧
  (∀ plan, (get_join_info tables context self).1 = Returns plan →
     JoinInfo.requested_tables plan = tables ∧
     JoinInfo.context plan = context ∧
     NoDup (JoinInfo.all_tables_needed plan) ∧
     (∀ t, t ∈ tables → t ∈ JoinInfo.all_tables_needed plan) ∧
     (∀ r, r ∈ JoinInfo.joins plan →
           Join.from_table r ∈ JoinInfo.all_tables_needed plan ∧
           Join.to_table r ∈ JoinInfo.all_tables_needed plan ∧
           Join.from_table r ≠ Join.to_table r) ∧
     (JoinInfo.schemas plan).*1 = JoinInfo.all_tables_needed plan ∧
     (∀ t, t ∈ JoinInfo.all_tables_needed plan →
           (t, dict_get (schemas self) t []) ∈ JoinInfo.schemas plan)).
Proof.
  rewrite get_join_info_run. cbn [fst snd]. split; [done|].
  destruct (tables_needed_outcome self tables) as (_ & _ & Hret).
  destruct ((get_all_tables_needed tables self).1) as [all|e].
  - destruct (Hret all eq_refl) as [Hnd Hsup]. split; [done|].
    intros plan [= <-]. cbn.
    destruct (columns_result_spec self all)
      as (cols & Hrun & _ & _ & Hentry & _ & Hkeys).
    rewrite get_columns_for_tables_run in Hrun. injection Hrun as <-.
    repeat split; try done.
    + apply list_elem_of_bind in H as ([a b] & Hr & [Ha Hb]%elem_of_pairs).
      unfold joins_of_pair in Hr. simpl in Hr.
      apply elem_of_app in Hr as [[-> _]%joins_from_ends|[-> _]%joins_from_ends]; done.
    + apply list_elem_of_bind in H as ([a b] & Hr & [Ha Hb]%elem_of_pairs).
      unfold joins_of_pair in Hr. simpl in Hr.
      apply elem_of_app in Hr as [[_ ->]%joins_from_ends|[_ ->]%joins_from_ends]; done.
    + apply list_elem_of_bind in H as ([a b] & Hr & Hab).
      pose proof (pairs_distinct all a b Hnd Hab) as Hne.
      unfold joins_of_pair in Hr. simpl in Hr.
      apply elem_of_app in Hr as [[-> ->]%joins_from_ends|[-> ->]%joins_from_ends];
        [done|by apply not_eq_sym].
    + by apply Hkeys.
  - split; [|by intros plan]. intros e'. split; intros [= <-]; done.
Qed.

(** ** The joins of a plan connect the request *)

Lemma chain_lookup g p i u v :
  chain g p → p !! i = Some u → p !! S i = Some v → adjacent g u v.
Proof.
  revert i. induction p as [|x p IH]; intros i Hch Hu Hv; [done|].
  destruct p as [|y p]; [done|]. destruct Hch as [Hxy Hch].
  destruct i as [|i]; simpl in Hu, Hv.
  - by injection Hu as <-; injection Hv as <-.
  - by apply (IH i).
Qed.

Lemma connects_contract g l1 l2 u a b :
  connects g (l1 ++ u :: u :: l2) a b → connects g (l1 ++ u :: l2) a b.
Proof.
  intros (Hh & Hl & Hch). split; [|split].
  - by destruct l1.
  - rewrite last_app in Hl. rewrite last_app. by destruct l2.
  - clear Hh Hl. induction l1 as [|x l1 IH]; simpl in *.
    + by destruct Hch.
    + destruct l1 as [|y l1]; simpl in *.
      * destruct Hch as (? & ? & ?). done.
      * destruct Hch as [? Hch]. split; [done|]. by apply IH.
Qed.

Lemma shortest_no_stutter g p a b i u :
  shortest g p a b → p !! i = Some u → p !! S i = Some u → False.
Proof.
  intros [Hcon Hmin] Hi HSi.
  assert (p = take i p ++ u :: u :: drop (S (S i)) p) as Hp.
  { rewrite <- (take_drop i p) at 1. f_equal.
    rewrite (drop_S p u i Hi). f_equal. by rewrite (drop_S p u (S i) HSi). }
  rewrite Hp in Hcon. apply connects_contract, Hmin in Hcon.
  rewrite Hp in Hcon at 1. rewrite !length_app in Hcon. simpl in Hcon. lia.
Qed.

Lemma record_of_adjacent g tables u v :
  NoDup tables → u ∈ tables → v ∈ tables → u ≠ v → adjacent g u v →
  ∃ r, r ∈ pairs tables ≫= joins_of_pair g None ∧ between u v r.
Proof.
  intros Hnd Hu Hv Hne (e & He & Hends).
  assert (∀ x y, x ∈ tables → y ∈ tables → x ≠ y → e.1.1 = x → e.1.2 = y →
            join_record x y e.2 ∈ pairs tables ≫= joins_of_pair g None) as Hrec.
  { intros x y Hx Hy Hxy H1 H2.
    apply (record_in_result g None tables x y e.2 Hnd Hx Hy Hxy).
    rewrite joins_from_None. apply list_elem_of_fmap. exists e.2. split; [done|].
    unfold Nx.get_edge_data. apply list_elem_of_fmap. exists e. split; [done|].
    by apply list_elem_of_filter. }
  destruct Hends as [[H1 H2]|[H1 H2]].
  - exists (join_record u v e.2). split; [by apply Hrec|]. by left.
  - exists (join_record v u e.2). split; [by apply Hrec|]. by right.
Qed.

(** X4. On a constructed object and with no context, whenever [get_join_info]
    returns a plan and two requested tables are connected in the graph, some
    shortest path between the two lies within the needed tables of the plan,
    and every step of that path, which joins two different tables, has a join
    record of the plan between its two ends. *)
Theorem X4_plan_joins_connect_the_request (tabs : list (string * list Column.t))
    (rels : list Rel.t) (tables : list string) (a b : string) (plan : JoinInfo.t) :
  let self := __init__ tabs rels in
  (a, b) ∈ pairs tables →
  connected (graph self) a b →
  (get_join_info tables None self).1 = Returns plan →
  ∃ p, shortest (graph self) p a b ∧
       (∀ x, x ∈ p → x ∈ JoinInfo.all_tables_needed plan) ∧
       ∀ i u v, p !! i = Some u → p !! S i = Some v →
                u ≠ v ∧ ∃ r, r ∈ JoinInfo.joins plan ∧ between u v r.
Proof.
  intros self Hab Hcon. rewrite get_join_info_run, get_all_tables_needed_run. cbn [fst].
  pose proof (fold_connect_outcome (graph self) (pairs tables) (list_to_set tables)) as H.
  destruct (fold_outcome _ _ _) as [s|e]; [|done].
  destruct H as [Hall Hx]. intros [= <-]. cbn.
  pose proof (shortest_path_spec (graph self) a b (init_closed tabs rels)) as Hsp.
  destruct (Nx.shortest_path (Nx.to_undirected (graph self)) a b) as [p|[| |]] eqn:E.
  - destruct Hsp as (_ & _ & Hshort). exists p. split; [done|].
    assert (∀ x, x ∈ p → x ∈ elements s) as Hin.
    { intros x Hxp. apply elem_of_elements, Hx. right. exists (a, b), p. done. }
    split; [done|]. intros i u v Hu Hv.
    assert (u ≠ v) as Hne.
    { intros ->. exact (shortest_no_stutter _ _ _ _ _ _ Hshort Hu Hv). }
    split; [done|].
    apply record_of_adjacent; [apply NoDup_elements| | |done|].
    + apply Hin. by eapply list_elem_of_lookup_2.
    + apply Hin. by eapply list_elem_of_lookup_2.
    + destruct Hshort as [(_ & _ & Hch) _]. by eapply chain_lookup.
  - destruct (Hall _ Hab) as [Ha Hb]. simpl in Ha, Hb. destruct Hsp; done.
  - destruct Hsp as (_ & _ & Hno). done.
  - done.
Qed.

Lemma sample_connected : connected (graph sample_kg) "Trade" "Concentration".
Proof.
  exists ["Trade"; "Counterparty"; "Concentration"]. split; [done|]. split; [done|].
  assert (Nx.edges (graph sample_kg) = map edge_of_rel sample_relationships) as HE
    by apply init_edges.
  split; [|split; [|done]].
  - exists (edge_of_rel (inner_join "Counterparty" "Trade"
      "Entity+Counterparty ID" "Entity+Reporting Counterparty ID" "default")).
    split; [rewrite HE; left|]. right. done.
  - exists (edge_of_rel (inner_join "Counterparty" "Concentration"
      "Entity+Counterparty Country" "Entity+Concentration Value" "For country level data")).
    split; [rewrite HE; right; left|]. left. done.
Qed.

Lemma sample_plan_exists :
  ∃ plan, (get_join_info ["Trade"; "Concentration"] None sample_kg).1 = Returns plan.
Proof.
  destruct (tables_needed_outcome sample_kg ["Trade"; "Concentration"]) as ([_ Hret] & _).
  destruct Hret as (result & Hres).
  - right. intros t [->|Ht]%elem_of_cons; [by_computation|].
    apply list_elem_of_singleton in Ht as ->. by_computation.
  - rewrite get_join_info_run. cbn [fst]. rewrite Hres. eauto.
Qed.

Lemma X4_witness :
  ("Trade", "Concentration") ∈ pairs ["Trade"; "Concentration"] ∧
  connected (graph sample_kg) "Trade" "Concentration" ∧
  ∃ plan p,
    (get_join_info ["Trade"; "Concentration"] None sample_kg).1 = Returns plan ∧
    shortest (graph sample_kg) p "Trade" "Concentration" ∧
    ∀ x, x ∈ p → x ∈ JoinInfo.all_tables_needed plan.
Proof.
  assert (("Trade", "Concentration") ∈ pairs ["Trade"; "Concentration"]) as Hpair by left.
  split; [exact Hpair|]. split; [exact sample_connected|].
  destruct sample_plan_exists as (plan & E).
  destruct (X4_plan_joins_connect_the_request sample_schemas sample_relationships
              ["Trade"; "Concentration"] "Trade" "Concentration" plan
              Hpair sample_connected E)
    as (p & Hshort & Hin & _).
  exists plan, p. split; [exact E|]. split; [exact Hshort|exact Hin].
Defined.

(** ** Export of the graph *)

Lemma elem_of_distinct l x : x ∈ distinct l ↔ x ∈ l.
Proof.
  induction l as [|y l IH]; cbn [distinct]; [done|].
  rewrite !elem_of_cons, list_elem_of_filter, IH.
  destruct (decide (x = y)); tauto.
Qed.

Lemma NoDup_distinct l : NoDup (distinct l).
Proof.
  induction l as [|y l IH]; cbn [distinct]; [constructor|].
  constructor; [|by apply NoDup_filter].
  rewrite list_elem_of_filter. by intros [? _].
Qed.

Lemma partition_by_key {A} (key : A -> string) (ks : list string) (l : list A) :
  NoDup ks → (∀ x, x ∈ l → key x ∈ ks) →
  (ks ≫= fun k => filter (fun x => key x = k) l) ≡ₚ l.
Proof.
  intros Hnd. revert l. induction Hnd as [|k ks Hk Hnd IH]; intros l Hl.
  - destruct l as [|x l]; [done|]. specialize (Hl x (list_elem_of_here _ _)).
    by apply elem_of_nil in Hl.
  - rewrite bind_cons.
    rewrite (bind_ext_in _ (fun k' => filter (fun x => key x = k')
                                        (filter (fun x => ¬ key x = k) l))).
    + rewrite IH; [apply filter_app_complement|].
      intros x [Hne Hx]%list_elem_of_filter.
      specialize (Hl x Hx). apply elem_of_cons in Hl as [? | ?]; done.
    + intros k' Hk'. rewrite list_filter_filter. apply list_filter_iff.
      intros x. split; [|by intros [? _]]. intros E. split; [done|].
      intros E'. apply Hk. by rewrite <- E', E.
Qed.

Lemma edges_from_pair g n nbr :
  filter (fun e => e.1.2 = nbr) (filter (fun e => e.1.1 = n) (Nx.edges g))
  = map (fun ed => (n, nbr, ed)) (Nx.get_edge_data g n nbr).
Proof.
  unfold Nx.get_edge_data. rewrite list_filter_filter.
  induction (Nx.edges g) as [|[[u v] ed] l IH]; [done|].
  rewrite !filter_cons. cbn [fst snd].
  destruct (decide (v = nbr ∧ u = n)) as [[-> ->]|Hne].
  - rewrite decide_True by done. cbn [fmap list_fmap map snd]. f_equal. apply IH.
  - rewrite decide_False by naive_solver. apply IH.
Qed.

(** The view lists every edge of a graph whose edges lie between its nodes,
    once. *)
Lemma view_order_permutation g :
  NoDup (Nx.nodes g).*1 → closed_graph g →
  edges_in_view_order g ≡ₚ Nx.edges g.
Proof.
  intros Hnd Hcl. unfold edges_in_view_order.
  etrans; [|apply (partition_by_key (fun e => e.1.1) (Nx.nodes g).*1 (Nx.edges g));
            [done|intros e He; by apply Hcl]].
  clear Hnd Hcl. generalize ((Nx.nodes g).*1). intros ns.
  induction ns as [|n ns IH]; [done|].
  rewrite !bind_cons. apply Permutation_app; [|exact IH]. clear IH.
  etrans; [|apply (partition_by_key (fun e => e.1.2) (successors g n)
                     (filter (fun e => e.1.1 = n) (Nx.edges g)))].
  - erewrite bind_ext_in; [done|]. intros nbr _. cbn beta. by rewrite edges_from_pair.
  - apply NoDup_distinct.
  - intros e He. unfold successors. apply elem_of_distinct.
    apply list_elem_of_fmap. by exists e.
Qed.

Lemma mapM_app_Some {A B} (f : A -> option B) l1 l2 k1 k2 :
  mapM f l1 = Some k1 → mapM f l2 = Some k2 → mapM f (l1 ++ l2) = Some (k1 ++ k2).
Proof. rewrite !mapM_Some. apply Forall2_app. Qed.

Lemma mapM_bind_Some {A B C} (f : B -> option C) (h : A -> list B) (r : A -> list C) l :
  (∀ x, x ∈ l → mapM f (h x) = Some (r x)) → mapM f (l ≫= h) = Some (l ≫= r).
Proof.
  induction l as [|x l IH]; intros Hl; [done|]. rewrite !bind_cons.
  apply mapM_app_Some; [apply Hl; left|].
  apply IH. intros y Hy. apply Hl. by right.
Qed.

Lemma bind_singleton_map {A B} (f : A -> B) (l : list A) :
  l ≫= (fun x => [f x]) = map f l.
Proof.
  induction l as [|x l IH]; [done|]. rewrite bind_cons, IH. done.
Qed.

Lemma fmap_bind_out {A B C} (f : B -> C) (h : A -> list B) (l : list A) :
  f <$> (l ≫= h) = l ≫= fun x => f <$> h x.
Proof.
  induction l as [|x l IH]; [done|]. by rewrite !bind_cons, fmap_app, IH.
Qed.

Lemma export_keys_run g n nbr :
  mapM (export_edge g)
       (seq 0 (length (Nx.get_edge_data g n nbr)) ≫= fun key => [(n, nbr, key)])
  = Some (map export_of_edge (map (fun ed => (n, nbr, ed)) (Nx.get_edge_data g n nbr))).
Proof.
  rewrite bind_singleton_map. apply mapM_Some_2.
  apply Forall2_same_length_lookup_2.
  - by rewrite !length_map, length_seq.
  - intros i x y Hx Hy.
    change (map ?f ?l) with (f <$> l) in Hx, Hy.
    rewrite list_lookup_fmap in Hx. rewrite !list_lookup_fmap in Hy.
    destruct (seq 0 (length (Nx.get_edge_data g n nbr)) !! i) as [k|] eqn:Hk; [|done].
    apply lookup_seq in Hk as [-> _]. injection Hx as <-.
    destruct (Nx.get_edge_data g n nbr !! i) as [ed|] eqn:Hed; [|done].
    injection Hy as <-. unfold export_edge, get_edge_data_key. cbn [fst snd].
    rewrite Hed. done.
Qed.

(** The export loop never meets a missing edge. *)
Lemma export_edges_run g :
  mapM (export_edge g) (edges_keys g)
  = Some (map export_of_edge (edges_in_view_order g)).
Proof.
  unfold edges_keys, edges_in_view_order.
  change (map export_of_edge ?l) with (export_of_edge <$> l).
  rewrite fmap_bind_out.
  apply mapM_bind_Some. intros n _.
  rewrite fmap_bind_out.
  apply mapM_bind_Some. intros nbr _. apply export_keys_run.
Qed.

Lemma no_edge_data g u v :
  v ∉ successors g u → Nx.get_edge_data g u v = [].
Proof.
  intros Hv. unfold Nx.get_edge_data.
  rewrite filter_none; [done|]. intros e He [Hu Hv']. apply Hv.
  unfold successors. apply elem_of_distinct, list_elem_of_fmap.
  exists e. split; [done|]. by apply list_elem_of_filter.
Qed.

(** ** The nodes of a graph under construction *)

Lemma distinct_app xs ys :
  distinct (xs ++ ys) = distinct xs ++ filter (fun y => y ∉ xs) (distinct ys).
Proof.
  induction xs as [|x xs IH]; cbn [distinct app].
  - symmetry. apply filter_all. intros y _. apply not_elem_of_nil.
  - rewrite IH, filter_app, list_filter_filter. do 2 f_equal.
    apply list_filter_iff. intros y. rewrite not_elem_of_cons. tauto.
Qed.

Lemma extend_names_twice (l xs ys : list string) :
  (l ++ filter (fun y => y ∉ l) (distinct xs)) ++
    filter (fun y => y ∉ l ++ filter (fun y => y ∉ l) (distinct xs)) (distinct ys)
  = l ++ filter (fun y => y ∉ l) (distinct (xs ++ ys)).
Proof.
  rewrite distinct_app, filter_app, list_filter_filter, <- app_assoc. do 2 f_equal.
  apply list_filter_iff. intros y.
  rewrite elem_of_app, list_elem_of_filter, elem_of_distinct.
  destruct (decide (y ∈ l)); tauto.
Qed.

Lemma extend_names_once (l : list string) n :
  (if bool_decide (n ∈ l) then l else l ++ [n])
  = l ++ filter (fun y => y ∉ l) (distinct [n]).
Proof.
  cbn [distinct]. rewrite filter_nil, filter_cons, filter_nil.
  case_bool_decide as Hn.
  - rewrite decide_False by tauto. by rewrite app_nil_r.
  - by rewrite decide_True.
Qed.

Lemma add_node_names_eq g n cols :
  (Nx.nodes (Nx.add_node g n cols)).*1
  = (Nx.nodes g).*1 ++ filter (fun y => y ∉ (Nx.nodes g).*1) (distinct [n]).
Proof.
  rewrite <- extend_names_once. unfold Nx.add_node, Nx.has_node.
  case_bool_decide as Hn; cbn [Nx.nodes].
  - clear Hn. induction (Nx.nodes g) as [|na l IH]; [done|].
    cbn [map fmap list_fmap]. f_equal; [|apply IH]. by case_bool_decide.
  - by rewrite fmap_app.
Qed.

Lemma touch_node_names_eq g n :
  (Nx.nodes (Nx.touch_node g n)).*1
  = (Nx.nodes g).*1 ++ filter (fun y => y ∉ (Nx.nodes g).*1) (distinct [n]).
Proof.
  rewrite <- extend_names_once. unfold Nx.touch_node, Nx.has_node.
  case_bool_decide as Hn; cbn [Nx.nodes]; [done|]. by rewrite fmap_app.
Qed.

Lemma add_edge_names_eq g u v attrs :
  (Nx.nodes (Nx.add_edge g u v attrs)).*1
  = (Nx.nodes g).*1 ++ filter (fun y => y ∉ (Nx.nodes g).*1) (distinct [u; v]).
Proof.
  unfold Nx.add_edge. cbn [Nx.nodes].
  rewrite (touch_node_names_eq _ v), (touch_node_names_eq _ u).
  apply (extend_names_twice _ [u] [v]).
Qed.

Lemma fold_names {A} (F : Nx.MultiDiGraph -> A -> Nx.MultiDiGraph) (key : A -> list string) :
  (∀ g x, (Nx.nodes (F g x)).*1
          = (Nx.nodes g).*1 ++ filter (fun y => y ∉ (Nx.nodes g).*1) (distinct (key x))) →
  ∀ xs g, (Nx.nodes (foldl F g xs)).*1
          = (Nx.nodes g).*1 ++ filter (fun y => y ∉ (Nx.nodes g).*1) (distinct (xs ≫= key)).
Proof.
  intros HF xs. induction xs as [|x xs IH]; intros g.
  - cbn. by rewrite app_nil_r.
  - cbn [foldl]. rewrite IH, HF, bind_cons. apply extend_names_twice.
Qed.

(** The nodes of a fresh knowledge graph: the tables with a schema, then the
    tables that only relationships mention, each at its first mention. *)
Lemma init_names tabs rels :
  (Nx.nodes (graph (__init__ tabs rels))).*1
  = distinct (tabs.*1 ++ (rels ≫= fun rel => [Rel.table1 rel; Rel.table2 rel])).
Proof.
  rewrite init_graph.
  rewrite (fold_names add_relationship (fun rel => [Rel.table1 rel; Rel.table2 rel]));
    [|intros g rel; apply add_edge_names_eq].
  rewrite (fold_names add_schema (fun item => [item.1]));
    [|intros g item; apply add_node_names_eq].
  rewrite bind_singleton_map. change (Nx.nodes Nx.empty).*1 with (@nil string).
  change (map fst tabs) with tabs.*1.
  rewrite (extend_names_twice [] tabs.*1). cbn [app].
  apply filter_all. intros y _. apply not_elem_of_nil.
Qed.

Lemma init_names_NoDup tabs rels : NoDup (Nx.nodes (graph (__init__ tabs rels))).*1.
Proof. rewrite init_names. apply NoDup_distinct. Qed.

Lemma filter_pair_of_view u v n nbr (d : list Edge.t) :
  filter (fun e : string * string * Edge.t => e.1.1 = u ∧ e.1.2 = v)
         (map (fun ed => (n, nbr, ed)) d)
  = if decide (n = u ∧ nbr = v) then map (fun ed => (n, nbr, ed)) d else [].
Proof.
  destruct (decide (n = u ∧ nbr = v)) as [[-> ->]|Hne].
  - apply filter_all. intros e (ed & -> & _)%list_elem_of_fmap. done.
  - apply filter_none. intros e (ed & -> & _)%list_elem_of_fmap. done.
Qed.

Lemma edges_of_pair g u v :
  filter (fun e => e.1.1 = u ∧ e.1.2 = v) (Nx.edges g)
  = map (fun ed => (u, v, ed)) (Nx.get_edge_data g u v).
Proof.
  rewrite <- edges_from_pair, list_filter_filter. apply list_filter_iff. tauto.
Qed.

(** The view keeps the edges of every ordered pair in the order of their
    keys. *)
Lemma view_order_pair g u v :
  NoDup (Nx.nodes g).*1 → closed_graph g →
  filter (fun e => e.1.1 = u ∧ e.1.2 = v) (edges_in_view_order g)
  = filter (fun e => e.1.1 = u ∧ e.1.2 = v) (Nx.edges g).
Proof.
  intros Hnd Hcl. rewrite edges_of_pair. unfold edges_in_view_order.
  rewrite filter_bind.
  destruct (decide (u ∈ (Nx.nodes g).*1)) as [Hu|Hu].
  - rewrite (bind_only_one _ _ u Hnd Hu).
    + rewrite filter_bind.
      destruct (decide (v ∈ successors g u)) as [Hv|Hv].
      * rewrite (bind_only_one _ _ v (NoDup_distinct _) Hv).
        -- rewrite filter_pair_of_view. by rewrite decide_True.
        -- intros y _ Hy. rewrite filter_pair_of_view. rewrite decide_False; [done|].
           by intros [_ ?].
      * rewrite (no_edge_data _ _ _ Hv). apply bind_nil_all.
        intros y Hy. rewrite filter_pair_of_view. rewrite decide_False; [done|].
        intros [_ ->]. done.
    + intros n _ Hn. rewrite filter_bind. apply bind_nil_all.
      intros y _. rewrite filter_pair_of_view. rewrite decide_False; [done|].
      by intros [? _].
  - rewrite bind_nil_all.
    + unfold Nx.get_edge_data. rewrite filter_none; [done|].
      intros e He [<- _]. apply Hu. by apply Hcl.
    + intros n Hn. rewrite filter_bind. apply bind_nil_all.
      intros y _. rewrite filter_pair_of_view. rewrite decide_False; [done|].
      intros [-> _]. done.
Qed.

(** ** The columns of a node *)

Lemma dict_get_map_other {V} (l : list (string * V)) n m v dflt :
  m ≠ n →
  dict_get (map (fun na => if bool_decide (na.1 = n) then (n, v) else na) l) m dflt
  = dict_get l m dflt.
Proof.
  intros Hne. induction l as [|[k w] l IH]; [done|]. cbn [map dict_get fst].
  case_bool_decide as Hk.
  - subst k. rewrite !bool_decide_false by done. apply IH.
  - rewrite IH. done.
Qed.

Lemma dict_get_map_same {V} (l : list (string * V)) n v dflt :
  n ∈ l.*1 →
  dict_get (map (fun na => if bool_decide (na.1 = n) then (n, v) else na) l) n dflt = v.
Proof.
  induction l as [|[k w] l IH]; [by intros ?%elem_of_nil|].
  cbn [map dict_get fst fmap list_fmap]. intros Hn.
  case_bool_decide as Hk.
  - by rewrite bool_decide_true.
  - rewrite bool_decide_false by done. apply IH.
    apply elem_of_cons in Hn as [-> | ?]; done.
Qed.

Lemma dict_get_app {V} (l1 l2 : list (string * V)) k dflt :
  dict_get (l1 ++ l2) k dflt = dict_get l1 k (dict_get l2 k dflt).
Proof.
  induction l1 as [|[k' w] l1 IH]; [done|]. cbn [app dict_get]. by rewrite IH.
Qed.

Lemma node_columns_add_same g n cols :
  node_columns (Nx.add_node g n cols) n = cols.
Proof.
  unfold node_columns, Nx.add_node, Nx.has_node.
  case_bool_decide as Hn; cbn [Nx.nodes].
  - by rewrite dict_get_map_same.
  - rewrite dict_get_app, (dict_get_absent _ _ _ Hn). cbn [dict_get].
    by rewrite bool_decide_true.
Qed.

Lemma node_columns_add_other g n m cols :
  m ≠ n → node_columns (Nx.add_node g n cols) m = node_columns g m.
Proof.
  intros Hne. unfold node_columns, Nx.add_node, Nx.has_node.
  case_bool_decide as Hn; cbn [Nx.nodes].
  - by rewrite dict_get_map_other.
  - rewrite dict_get_app. cbn [dict_get]. by rewrite bool_decide_false.
Qed.

Lemma node_columns_touch g n m :
  node_columns (Nx.touch_node g n) m = node_columns g m.
Proof.
  unfold node_columns, Nx.touch_node, Nx.has_node.
  case_bool_decide as Hn; cbn [Nx.nodes]; [done|].
  rewrite dict_get_app. cbn [dict_get]. case_bool_decide as Hm; [|done].
  subst m. by rewrite (dict_get_absent _ _ _ Hn).
Qed.

Lemma node_columns_add_edge g u v attrs m :
  node_columns (Nx.add_edge g u v attrs) m = node_columns g m.
Proof.
  unfold Nx.add_edge.
  change (node_columns (Nx.mkDi ?ns ?es) m) with (node_columns (Nx.mkDi ns []) m).
  transitivity (node_columns (Nx.touch_node (Nx.touch_node g u) v) m);
    [done|]. by rewrite !node_columns_touch.
Qed.

Lemma node_columns_relationships g rels m :
  node_columns (foldl add_relationship g rels) m = node_columns g m.
Proof.
  revert g. induction rels as [|rel rels IH]; intros g; [done|].
  cbn [foldl]. rewrite IH. apply node_columns_add_edge.
Qed.

Lemma node_columns_absent g m : m ∉ (Nx.nodes g).*1 → node_columns g m = [].
Proof. intros Hm. unfold node_columns. by rewrite dict_get_absent. Qed.

(** The columns of a node after the schemas have been added: those of the
    last schema of that name, and the earlier value when there is none. *)
Lemma node_columns_schemas g tabs m :
  node_columns (foldl add_schema g tabs) m
  = match last (filter (fun item => item.1 = m) tabs) with
    | Some item => map Column.name item.2
    | None => node_columns g m
    end.
Proof.
  induction tabs as [|item tabs IH] using rev_ind; [done|].
  rewrite foldl_app, filter_app, filter_cons, filter_nil. cbn [foldl].
  unfold add_schema at 1. destruct (decide (item.1 = m)) as [<-|Hne].
  - rewrite last_snoc. apply node_columns_add_same.
  - rewrite app_nil_r, node_columns_add_other by done. apply IH.
Qed.

(** ** The graph rebuilt from exported data *)

Lemma distinct_NoDup l : NoDup l → distinct l = l.
Proof.
  induction 1 as [|x l Hx Hnd IH]; [done|]. cbn [distinct]. rewrite IH. f_equal.
  apply filter_all. intros y Hy ->. done.
Qed.

Lemma edge_of_export_of_edge e : edge_of_export (export_of_edge e) = e.
Proof. by destruct e as [[u v] []]. Qed.

Lemma export_of_edge_of_export edge : export_of_edge (edge_of_export edge) = edge.
Proof. by destruct edge. Qed.

Lemma rebuild_nodes_names ns (cols : string -> list string) G :
  (Nx.nodes (foldl (fun G node =>
                      Nx.add_node G (ExportNode.table_name node) (ExportNode.columns node))
                   G (map (fun n => ExportNode.mk n (cols n) (length (cols n))) ns))).*1
  = (Nx.nodes G).*1 ++ filter (fun y => y ∉ (Nx.nodes G).*1) (distinct ns).
Proof.
  rewrite (fold_names _ (fun node => [ExportNode.table_name node]));
    [|intros g node; apply add_node_names_eq].
  rewrite bind_singleton_map, map_map. cbn [ExportNode.table_name].
  by rewrite map_id.
Qed.

Lemma rebuild_nodes_edges (nodes : list ExportNode.t) G :
  Nx.edges (foldl (fun G node =>
                     Nx.add_node G (ExportNode.table_name node) (ExportNode.columns node))
                  G nodes)
  = Nx.edges G.
Proof.
  revert G. induction nodes as [|node nodes IH]; intros G; [done|].
  cbn [foldl]. by rewrite IH, add_node_edges.
Qed.

Lemma rebuild_nodes_columns ns (cols : string -> list string) G m :
  node_columns (foldl (fun G node =>
                         Nx.add_node G (ExportNode.table_name node) (ExportNode.columns node))
                      G (map (fun n => ExportNode.mk n (cols n) (length (cols n))) ns)) m
  = if decide (m ∈ ns) then cols m else node_columns G m.
Proof.
  induction ns as [|n ns IH] using rev_ind.
  - cbn. rewrite decide_False; [done|]. apply not_elem_of_nil.
  - rewrite map_app, foldl_app. cbn [map foldl ExportNode.table_name ExportNode.columns].
    destruct (decide (m = n)) as [->|Hne].
    + rewrite node_columns_add_same. rewrite decide_True; [done|].
      apply elem_of_app. right. left.
    + rewrite node_columns_add_other, IH by done.
      destruct (decide (m ∈ ns)) as [Hm|Hm].
      * rewrite decide_True; [done|]. apply elem_of_app. by left.
      * rewrite decide_False; [done|]. rewrite elem_of_app, list_elem_of_singleton. tauto.
Qed.

Lemma rebuild_edges_edges (es : list (string * string * Edge.t)) G :
  Nx.edges (foldl (fun G edge =>
                     Nx.add_edge G (ExportEdge.from edge) (ExportEdge.to edge)
                       (Edge.mk (ExportEdge.source_columns edge)
                          (ExportEdge.target_columns edge) (ExportEdge.join_type edge)
                          (ExportEdge.context edge) (ExportEdge.description edge)))
                  G (map export_of_edge es))
  = Nx.edges G ++ es.
Proof.
  revert G. induction es as [|e es IH]; intros G.
  - cbn. by rewrite app_nil_r.
  - cbn [map foldl]. rewrite IH, add_edge_edges, <- app_assoc. f_equal.
    cbn [app]. f_equal. apply (edge_of_export_of_edge e).
Qed.

Lemma rebuild_edges_names (edges : list ExportEdge.t) G :
  (∀ edge, edge ∈ edges →
     ExportEdge.from edge ∈ (Nx.nodes G).*1 ∧ ExportEdge.to edge ∈ (Nx.nodes G).*1) →
  (Nx.nodes (foldl (fun G edge =>
                      Nx.add_edge G (ExportEdge.from edge) (ExportEdge.to edge)
                        (Edge.mk (ExportEdge.source_columns edge)
                           (ExportEdge.target_columns edge) (ExportEdge.join_type edge)
                           (ExportEdge.context edge) (ExportEdge.description edge)))
                   G edges)).*1
  = (Nx.nodes G).*1.
Proof.
  intros Hin.
  rewrite (fold_names _ (fun edge => [ExportEdge.from edge; ExportEdge.to edge]));
    [|intros g edge; apply add_edge_names_eq].
  rewrite filter_none; [by rewrite app_nil_r|].
  intros y Hy Hn. apply Hn. apply elem_of_distinct, list_elem_of_bind in Hy as (edge & Hy & He).
  destruct (Hin edge He) as [Hf Ht].
  apply elem_of_cons in Hy as [-> | Hy]; [done|].
  apply list_elem_of_singleton in Hy as ->. done.
Qed.

Lemma rebuild_edges_columns (edges : list ExportEdge.t) G m :
  node_columns (foldl (fun G edge =>
                         Nx.add_edge G (ExportEdge.from edge) (ExportEdge.to edge)
                           (Edge.mk (ExportEdge.source_columns edge)
                              (ExportEdge.target_columns edge) (ExportEdge.join_type edge)
                              (ExportEdge.context edge) (ExportEdge.description edge)))
                      G edges) m
  = node_columns G m.
Proof.
  revert G. induction edges as [|edge edges IH]; intros G; [done|].
  cbn [foldl]. rewrite IH. apply node_columns_add_edge.
Qed.

Lemma export_graph_data_run self :
  export_graph_data self
  = Some (GraphData.mk (map (export_node (graph self)) (Nx.nodes (graph self)).*1)
            (map export_of_edge (edges_in_view_order (graph self)))).
Proof. unfold export_graph_data. cbn zeta. by rewrite export_edges_run. Qed.

Lemma view_order_endpoints g e :
  NoDup (Nx.nodes g).*1 → closed_graph g →
  e ∈ edges_in_view_order g → e.1.1 ∈ (Nx.nodes g).*1 ∧ e.1.2 ∈ (Nx.nodes g).*1.
Proof.
  intros Hnd Hcl He. apply Hcl. by rewrite <- (view_order_permutation g Hnd Hcl).
Qed.

(** What the rebuilt graph is, for a graph without repeated nodes whose
    edges lie between its nodes. *)
Lemma rebuild_of_export g :
  NoDup (Nx.nodes g).*1 → closed_graph g →
  let G := rebuild_graph (GraphData.mk (map (export_node g) (Nx.nodes g).*1)
                            (map export_of_edge (edges_in_view_order g))) in
  (Nx.nodes G).*1 = (Nx.nodes g).*1 ∧
  (∀ n, node_columns G n = node_columns g n) ∧
  Nx.edges G = edges_in_view_order g.
Proof.
  intros Hnd Hcl G. subst G. unfold rebuild_graph.
  cbn [GraphData.nodes GraphData.edges].
  assert ((Nx.nodes (foldl (fun G node =>
             Nx.add_node G (ExportNode.table_name node) (ExportNode.columns node))
             Nx.empty (map (export_node g) (Nx.nodes g).*1))).*1 = (Nx.nodes g).*1) as Hnames.
  { unfold export_node. rewrite (rebuild_nodes_names _ (node_columns g)).
    change (Nx.nodes Nx.empty).*1 with (@nil string). cbn [app].
    rewrite filter_all; [by apply distinct_NoDup|]. intros y _. apply not_elem_of_nil. }
  split; [|split].
  - rewrite rebuild_edges_names; [done|]. rewrite Hnames.
    intros edge (e & -> & He)%list_elem_of_fmap. cbn [export_of_edge ExportEdge.from ExportEdge.to].
    by apply view_order_endpoints.
  - intros n. rewrite rebuild_edges_columns. unfold export_node.
    rewrite (rebuild_nodes_columns _ (node_columns g)).
    destruct (decide (n ∈ (Nx.nodes g).*1)) as [Hn|Hn]; [done|].
    by rewrite (node_columns_absent g n Hn).
  - rewrite rebuild_edges_edges, rebuild_nodes_edges. done.
Qed.

Lemma distinct_constant {A} x (d : list A) :
  d ≠ [] → distinct (map (fun _ => x) d) = [x].
Proof.
  destruct d as [|a d]; [done|]. intros _. cbn [map distinct]. f_equal.
  apply filter_none. intros y Hy. apply elem_of_distinct, list_elem_of_fmap in Hy as (_ & -> & _).
  by intros ?.
Qed.

Lemma distinct_blocks {A} (d : string -> list A) (l : list string) :
  NoDup l → (∀ x, x ∈ l → d x ≠ []) →
  distinct (l ≫= fun x => map (fun _ => x) (d x)) = l.
Proof.
  induction 1 as [|x l Hx Hnd IH]; intros Hd; [done|].
  rewrite bind_cons, distinct_app, distinct_constant by (apply Hd; left).
  rewrite IH by (intros y Hy; apply Hd; by right). cbn [app]. f_equal.
  apply filter_all. intros y Hy (_ & -> & _)%list_elem_of_fmap. done.
Qed.

Lemma edge_data_of_successor g n nbr :
  nbr ∈ successors g n → Nx.get_edge_data g n nbr ≠ [].
Proof.
  intros Hs He. unfold successors in Hs.
  apply elem_of_distinct, list_elem_of_fmap in Hs as (e & -> & [Hn Hin]%list_elem_of_filter).
  unfold Nx.get_edge_data in He. apply fmap_nil_inv in He.
  assert (e ∈ filter (fun e' : string * string * Edge.t => e'.1.1 = n ∧ e'.1.2 = e.1.2)
                     (Nx.edges g)) as Hf by (by apply list_elem_of_filter).
  rewrite He in Hf. by apply elem_of_nil in Hf.
Qed.

Lemma successors_of_view g G n :
  NoDup (Nx.nodes g).*1 → n ∈ (Nx.nodes g).*1 →
  Nx.edges G = edges_in_view_order g →
  successors G n = successors g n.
Proof.
  intros Hnd Hn HG. unfold successors at 1. rewrite HG. unfold edges_in_view_order.
  rewrite filter_bind, (bind_only_one _ _ n Hnd Hn).
  - rewrite filter_all.
    + change (map (fun e : string * string * Edge.t => e.1.2) ?l)
        with ((fun e : string * string * Edge.t => e.1.2) <$> l).
      rewrite fmap_bind_out.
      erewrite bind_ext_in.
      * apply (distinct_blocks (fun nbr => Nx.get_edge_data g n nbr)); [apply NoDup_distinct|].
        intros nbr. apply edge_data_of_successor.
      * intros nbr _. cbn beta.
        change (?f <$> map ?h ?l) with (map f (map h l)). by rewrite map_map.
    + intros e (nbr & He & _)%list_elem_of_bind.
      apply list_elem_of_fmap in He as (ed & -> & _). done.
  - intros m _ Hm. apply filter_none.
    intros e (nbr & He & _)%list_elem_of_bind.
    apply list_elem_of_fmap in He as (ed & -> & _). done.
Qed.

Lemma edge_data_of_view g G u v :
  NoDup (Nx.nodes g).*1 → closed_graph g →
  Nx.edges G = edges_in_view_order g →
  Nx.get_edge_data G u v = Nx.get_edge_data g u v.
Proof.
  intros Hnd Hcl HG. unfold Nx.get_edge_data. rewrite HG.
  by rewrite (view_order_pair g u v Hnd Hcl).
Qed.

Lemma view_of_view g G :
  NoDup (Nx.nodes g).*1 → closed_graph g →
  (Nx.nodes G).*1 = (Nx.nodes g).*1 →
  Nx.edges G = edges_in_view_order g →
  edges_in_view_order G = edges_in_view_order g.
Proof.
  intros Hnd Hcl Hnames HG. unfold edges_in_view_order. rewrite Hnames.
  apply bind_ext_in. intros n Hn.
  rewrite (successors_of_view g G n Hnd Hn HG).
  apply bind_ext_in. intros nbr _.
  by rewrite (edge_data_of_view g G n nbr Hnd Hcl HG).
Qed.

(** X5: on a freshly built knowledge graph [export_graph_data] does not
    fail.  Its nodes are the tables with a schema followed by the tables only
    relationships mention, each once; every node carries the columns of its
    schema (none when it has no schema) and their number; its edges are the
    relationships, each once, and the edges of every ordered pair of tables
    keep the order of the relationships. *)
Theorem X5_export_lists_every_table_and_relationship tabs rels :
  ∃ data,
    export_graph_data (__init__ tabs rels) = Some data ∧
    map ExportNode.table_name (GraphData.nodes data)
      = distinct (tabs.*1 ++ (rels ≫= fun rel => [Rel.table1 rel; Rel.table2 rel])) ∧
    (∀ node, node ∈ GraphData.nodes data →
       ExportNode.column_count node = length (ExportNode.columns node) ∧
       ExportNode.columns node
       = match last (filter (fun item => item.1 = ExportNode.table_name node) tabs) with
         | Some item => map Column.name item.2
         | None => []
         end) ∧
    map edge_of_export (GraphData.edges data) ≡ₚ map edge_of_rel rels ∧
    ∀ u v,
      filter (fun e => e.1.1 = u ∧ e.1.2 = v) (map edge_of_export (GraphData.edges data))
      = filter (fun e => e.1.1 = u ∧ e.1.2 = v) (map edge_of_rel rels).
Proof.
  eexists. split; [apply export_graph_data_run|].
  cbn [GraphData.nodes GraphData.edges].
  pose proof (init_names_NoDup tabs rels) as Hnd.
  pose proof (init_closed tabs rels) as Hcl.
  assert (map edge_of_export
            (map export_of_edge (edges_in_view_order (graph (__init__ tabs rels))))
          = edges_in_view_order (graph (__init__ tabs rels))) as Hback.
  { rewrite map_map. erewrite map_ext; [apply map_id|]. intros e. apply edge_of_export_of_edge. }
  rewrite Hback.
  split; [|split; [|split]].
  - rewrite map_map. cbn [export_node ExportNode.table_name]. rewrite map_id. apply init_names.
  - intros node (n & -> & Hn)%list_elem_of_fmap.
    cbn [export_node ExportNode.table_name ExportNode.columns ExportNode.column_count].
    split; [done|]. rewrite init_graph, node_columns_relationships, node_columns_schemas.
    destruct (last _); [done|]. apply node_columns_absent.
    change (Nx.nodes Nx.empty).*1 with (@nil string). apply not_elem_of_nil.
  - rewrite (view_order_permutation _ Hnd Hcl). by rewrite init_edges.
  - intros u v. rewrite (view_order_pair _ u v Hnd Hcl). by rewrite init_edges.
Qed.

(** X6: the graph that [visualize_kg.py] builds from the data exported by a
    freshly built knowledge graph has the same nodes with the same columns,
    the same edges up to their order in the whole list, and the same edges
    in the same order between every ordered pair of nodes; so
    [get_join_relationships] answers every request as before, and exporting
    the rebuilt graph gives the same data again. *)
Theorem X6_rebuilt_graph_answers_as_the_original tabs rels :
  ∃ data,
    export_graph_data (__init__ tabs rels) = Some data ∧
    (Nx.nodes (rebuild_graph data)).*1 = (Nx.nodes (graph (__init__ tabs rels))).*1 ∧
    (∀ n, node_columns (rebuild_graph data) n
          = node_columns (graph (__init__ tabs rels)) n) ∧
    Nx.edges (rebuild_graph data) ≡ₚ Nx.edges (graph (__init__ tabs rels)) ∧
    (∀ u v, Nx.get_edge_data (rebuild_graph data) u v
            = Nx.get_edge_data (graph (__init__ tabs rels)) u v) ∧
    (∀ tables context,
       (get_join_relationships tables context (mkKG (rebuild_graph data) tabs rels)).1
       = (get_join_relationships tables context (__init__ tabs rels)).1) ∧
    export_graph_data (mkKG (rebuild_graph data) tabs rels) = Some data.
Proof.
  eexists. split; [apply export_graph_data_run|].
  pose proof (init_names_NoDup tabs rels) as Hnd.
  pose proof (init_closed tabs rels) as Hcl.
  destruct (rebuild_of_export _ Hnd Hcl) as (Hnames & Hcols & Hedges).
  set (g := graph (__init__ tabs rels)) in *.
  set (G := rebuild_graph _) in *.
  assert (∀ u v, Nx.get_edge_data G u v = Nx.get_edge_data g u v) as Hdata
    by (intros u v; by apply edge_data_of_view).
  split; [exact Hnames|]. split; [exact Hcols|].
  split; [rewrite Hedges; by apply view_order_permutation|].
  split; [exact Hdata|]. split.
  - intros tables context. rewrite !get_join_relationships_returns. f_equal.
    apply bind_ext_in. intros st _.
    unfold joins_of_pair, joins_from, kept_edges. cbn [graph]. fold g.
    by rewrite !Hdata.
  - rewrite export_graph_data_run. cbn [graph]. rewrite Hnames.
    rewrite (view_of_view g G Hnd Hcl Hnames Hedges). do 2 f_equal.
    apply map_ext. intros n. unfold export_node. by rewrite Hcols.
Qed.

(** ** Statistics of the graph *)

Lemma sum_of_classes {A} (key : A -> string) (ks : list string) (l : list A) :
  NoDup ks → (∀ x, x ∈ l → key x ∈ ks) →
  sum_list (map (fun k => length (filter (fun x => key x = k) l)) ks) = length l.
Proof.
  intros Hnd Hl. rewrite <- (Permutation_length (partition_by_key key ks l Hnd Hl)).
  clear. induction ks as [|k ks IH]; [done|].
  rewrite bind_cons, length_app. cbn [map sum_list]. by rewrite IH.
Qed.

Lemma sum_list_plus {A} (a b : A -> nat) (l : list A) :
  sum_list (map (fun x => a x + b x) l) = sum_list (map a l) + sum_list (map b l).
Proof. induction l as [|x l IH]; [done|]. cbn. rewrite IH. lia. Qed.

(** Every edge is counted at both of its ends. *)
Lemma degree_sum g :
  NoDup (Nx.nodes g).*1 → closed_graph g →
  sum_list (map (degree g) (Nx.nodes g).*1) = 2 * length (Nx.edges g).
Proof.
  intros Hnd Hcl. unfold degree. rewrite sum_list_plus.
  rewrite (sum_of_classes (fun e : string * string * Edge.t => e.1.1) _ _ Hnd)
    by (intros e He; by apply Hcl).
  rewrite (sum_of_classes (fun e : string * string * Edge.t => e.1.2) _ _ Hnd)
    by (intros e He; by apply Hcl).
  lia.
Qed.

Lemma filter_length_all {A} (P : A -> Prop) `{∀ x, Decision (P x)} (l : list A) :
  length (filter P l) = length l ↔ ∀ x, x ∈ l → P x.
Proof.
  split.
  - intros Hlen x Hx. destruct (decide (P x)) as [|Hn]; [done|].
    pose proof (length_filter_lt P l x Hx Hn). lia.
  - intros Hall. by rewrite filter_all.
Qed.

Lemma chain_join g p q b :
  chain g p → last p = Some b → chain g (b :: q) → chain g (p ++ q).
Proof.
  induction p as [|u [|v r] IH]; intros Hp Hl Hq.
  - done.
  - cbn in Hl. injection Hl as ->. exact Hq.
  - destruct Hp as [Huv Hp]. split; [exact Huv|].
    apply IH; [exact Hp| |exact Hq]. exact Hl.
Qed.

Lemma connected_sym g a b : connected g a b → connected g b a.
Proof.
  intros (p & Hh & Hl & Hc). exists (reverse p).
  split; [by rewrite head_reverse|]. split; [by rewrite last_reverse|].
  by apply chain_reverse.
Qed.

Lemma connected_trans g a b c : connected g a b → connected g b c → connected g a c.
Proof.
  intros (p & Hh & Hl & Hc) (q & Hh' & Hl' & Hc').
  destruct q as [|b' q]; [done|]. cbn in Hh'. injection Hh' as ->.
  exists (p ++ q). split; [|split].
  - destruct p; [done|]. exact Hh.
  - destruct q as [|x q]; [rewrite app_nil_r; cbn in Hl'; congruence|].
    rewrite last_app. cbn in Hl'. by rewrite Hl'.
  - by apply (chain_join g p q b).
Qed.

Lemma reaches_connected g a b :
  closed_graph g → a ∈ (Nx.nodes g).*1 → b ∈ (Nx.nodes g).*1 →
  reaches g a b = true ↔ connected g a b.
Proof.
  intros Hcl Ha Hb. unfold reaches.
  pose proof (shortest_path_spec g a b Hcl) as Hs.
  destruct (Nx.shortest_path (Nx.to_undirected g) a b) as [p|[| |]].
  - destruct Hs as (_ & _ & Hp & _). split; [|done]. intros _. by exists p.
  - destruct Hs as [? | ?]; done.
  - destruct Hs as (_ & _ & Hn). split; [done|]. intros ?. done.
  - done.
Qed.

Lemma is_weakly_connected_spec g :
  closed_graph g →
  match is_weakly_connected g with
  | None => Nx.nodes g = []
  | Some b =>
      Nx.nodes g ≠ [] ∧
      (b = true ↔ ∀ x y, x ∈ (Nx.nodes g).*1 → y ∈ (Nx.nodes g).*1 → connected g x y)
  end.
Proof.
  intros Hcl. unfold is_weakly_connected.
  destruct ((Nx.nodes g).*1) as [|first rest] eqn:Hns.
  - by apply fmap_nil_inv in Hns.
  - split; [intros E; by rewrite E in Hns|].
    rewrite bool_decide_eq_true, <- (length_fmap fst (Nx.nodes g)), Hns, filter_length_all.
    assert (first ∈ first :: rest) as Hfirst by left.
    rewrite <- Hns in *. split.
    + intros Hall x y Hx Hy.
      apply (connected_trans g x first y).
      * apply connected_sym. apply reaches_connected; auto.
      * apply reaches_connected; auto.
    + intros Hall y Hy. apply reaches_connected; auto.
Qed.

Lemma get_graph_stats_None self :
  get_graph_stats self = None ↔ Nx.nodes (graph self) = [].
Proof.
  unfold get_graph_stats, is_weakly_connected. cbn zeta.
  destruct ((Nx.nodes (graph self)).*1) as [|first rest] eqn:Hns.
  - apply fmap_nil_inv in Hns. by rewrite Hns.
  - cbn. split; [done|]. intros E. by rewrite E in Hns.
Qed.

Lemma init_nodes_nil tabs rels :
  Nx.nodes (graph (__init__ tabs rels)) = [] ↔ tabs = [] ∧ rels = [].
Proof.
  split.
  - intros E. pose proof (init_names tabs rels) as Hn. rewrite E in Hn.
    destruct tabs as [|item tabs]; [|done].
    destruct rels as [|rel rels]; [done|]. done.
  - intros [-> ->]. done.
Qed.

Lemma get_graph_stats_Some self stats :
  get_graph_stats self = Some stats →
  ∃ b, is_weakly_connected (graph self) = Some b ∧
       stats = GraphStats.mk (length (Nx.nodes (graph self))) (length (Nx.edges (graph self)))
                 (Nx.nodes (graph self)).*1
                 (if 0 <? length (Nx.nodes (graph self))
                  then QArith_base.Qmake
                         (Z.of_nat (sum_list (map (degree (graph self)) (Nx.nodes (graph self)).*1)))
                         (Pos.of_nat (length (Nx.nodes (graph self))))
                  else QArith_base.Qmake 0 1)
                 b.
Proof.
  unfold get_graph_stats. cbn zeta.
  destruct (is_weakly_connected (graph self)) as [b|]; [|done].
  intros [= <-]. by exists b.
Qed.

(** X7: [get_graph_stats] fails on a freshly built knowledge graph exactly
    when there is neither a schema nor a relationship, so the zero that
    guards the division is never part of a result.  Otherwise the tables are
    those with a schema followed by those only relationships mention, each
    once, their number is positive, every relationship is counted once, and
    the average is twice the number of relationships over the number of
    tables. *)
Theorem X7_stats_count_tables_and_relationships tabs rels :
  (get_graph_stats (__init__ tabs rels) = None ↔ tabs = [] ∧ rels = []) ∧
  ∀ stats, get_graph_stats (__init__ tabs rels) = Some stats →
    GraphStats.tables stats
      = distinct (tabs.*1 ++ (rels ≫= fun rel => [Rel.table1 rel; Rel.table2 rel])) ∧
    GraphStats.total_tables stats = length (GraphStats.tables stats) ∧
    0 < GraphStats.total_tables stats ∧
    GraphStats.total_relationships stats = length rels ∧
    GraphStats.average_connections stats
      = QArith_base.Qmake (Z.of_nat (2 * length rels))
                          (Pos.of_nat (GraphStats.total_tables stats)).
Proof.
  split; [by rewrite get_graph_stats_None, init_nodes_nil|].
  intros stats Hstats.
  assert (Nx.nodes (graph (__init__ tabs rels)) ≠ []) as Hne.
  { intros E. apply get_graph_stats_None in E. congruence. }
  apply get_graph_stats_Some in Hstats as (b & _ & ->).
  cbn [GraphStats.tables GraphStats.total_tables GraphStats.total_relationships
       GraphStats.average_connections].
  assert (0 < length (Nx.nodes (graph (__init__ tabs rels)))) as Hpos.
  { destruct (Nx.nodes (graph (__init__ tabs rels))); [done|]. cbn. lia. }
  split; [apply init_names|]. split; [by rewrite length_fmap|]. split; [exact Hpos|].
  split; [by rewrite init_edges, length_map|].
  apply Nat.ltb_lt in Hpos. rewrite Hpos.
  rewrite degree_sum by (apply init_names_NoDup || apply init_closed).
  by rewrite init_edges, length_map.
Qed.

(** X8: when [get_graph_stats] returns on a freshly built knowledge graph,
    [is_connected] is true exactly when every two tables of the graph are
    joined by a chain of relationships, read in either direction. *)
Theorem X8_is_connected_means_all_tables_linked tabs rels :
  ∀ stats, get_graph_stats (__init__ tabs rels) = Some stats →
    (GraphStats.is_connected stats = true ↔
     ∀ a b, a ∈ GraphStats.tables stats → b ∈ GraphStats.tables stats →
            connected (graph (__init__ tabs rels)) a b).
Proof.
  intros stats Hstats.
  pose proof (is_weakly_connected_spec _ (init_closed tabs rels)) as Hw.
  apply get_graph_stats_Some in Hstats as (b & Hb & ->). rewrite Hb in Hw.
  cbn [GraphStats.tables GraphStats.is_connected]. apply Hw.
Qed.

Lemma X8_witness :
  let stats := GraphStats.mk 3 4 ["Counterparty"; "Trade"; "Concentration"]
                 (QArith_base.Qmake 8 3) true in
  get_graph_stats (__init__ sample_schemas sample_relationships) = Some stats ∧
  (GraphStats.is_connected stats = true ↔
   ∀ a b, a ∈ GraphStats.tables stats → b ∈ GraphStats.tables stats →
          connected (graph (__init__ sample_schemas sample_relationships)) a b).
Proof.
  intros stats.
  assert (get_graph_stats (__init__ sample_schemas sample_relationships) = Some stats) as E
    by (vm_compute; reflexivity).
  split; [exact E|].
  exact (X8_is_connected_means_all_tables_linked
           sample_schemas sample_relationships stats E).
Defined.
